(** * BaselineWalkingController: trajectory functions and the DDP-ZMP manager

    A shallow embedding of [Func], [PiecewiseFunc], [Polynomial] and
    [Constant] (the function framework of namespace BWC), of
    [CentroidalManagerDdpZmp::reset] / [runMpc] and of the FSM state
    [InitialState], with the properties of the specification and further
    properties of the code stated and proved over it.

    Doubles are kept abstract: the function framework is written over any
    type [R] that carries the operations the code uses ([ScalarOps]), and the
    theorems assume only the algebraic laws they need ([ScalarMulLaws],
    [ScalarOrderLaws]).  Exact rationals [Q] are the instance on which the
    scenarios of the specification are evaluated; rounding is not modelled. *)

From Stdlib Require Import ZArith List Bool Lia QArith Permutation.
From Stdlib Require String.
Import ListNotations.

Set Implicit Arguments.
Local Open Scope Z_scope.

(** ** Outcomes of a C++ call *)

(** What [mc_rtc::log::error_and_throw] reports in [PiecewiseFunc::checkArg]:
    the three values formatted into the message, and the [std::length_error]
    of an oversized [std::vector::assign]. *)
Inductive error (R : Type) : Type :=
| OutOfDomain (lower t upper : R)
| LengthError.
Arguments LengthError {R}.

(** A call returns a value, throws, or has undefined behaviour (reading
    through [rbegin()] or [end()] of an empty map, indexing an array out of
    range, dereferencing a null pointer). *)
Inductive outcome (R A : Type) : Type :=
| Ret (a : A)
| Throw (e : error R)
| Undefined.
Arguments Ret {R A} a.
Arguments Throw {R A} e.
Arguments Undefined {R A}.

Definition bind {R A B : Type} (m : outcome R A) (k : A -> outcome R B) : outcome R B :=
  match m with
  | Ret a => k a
  | Throw e => Throw e
  | Undefined => Undefined
  end.

Notation "x <- m ;; k" := (bind m (fun x => k))
  (at level 61, m at next level, right associativity).

(** [for(int i = 0; i < n; i++) s = body(i, s);] *)
Fixpoint for_loop {R St : Type} (fuel : nat) (i : Z) (body : Z -> St -> outcome R St) (s : St)
  : outcome R St :=
  match fuel with
  | O => Ret s
  | S fuel' => s' <- body i s ;; for_loop fuel' (i + 1) body s'
  end.

Definition for_range {R St : Type} (n : Z) (body : Z -> St -> outcome R St) (s : St)
  : outcome R St :=
  for_loop (Z.to_nat n) 0 body s.

(** [a[i]] on a [std::array]: undefined outside [0 .. size-1]. *)
Definition array_get {R A : Type} (a : list A) (i : Z) : outcome R A :=
  if i <? 0 then Undefined
  else match nth_error a (Z.to_nat i) with
       | Some v => Ret v
       | None => Undefined
       end.

(** ** The scalar type [double] and the value type [T] *)

Class ScalarOps (R : Type) : Type := {
  sone : R;
  smul : R -> R -> R;
  ssub : R -> R -> R;
  sltb : R -> R -> bool;          (* operator< *)
  of_int : Z -> R;                (* conversion of an int operand *)
  double_lowest : R;              (* std::numeric_limits<double>::lowest() *)
  double_max : R                  (* std::numeric_limits<double>::max() *)
}.

(** Multiplication is a commutative monoid and [of_int] respects it. *)
Class ScalarMulLaws (R : Type) `{ScalarOps R} : Prop := {
  smul_assoc : forall a b c : R, smul a (smul b c) = smul (smul a b) c;
  smul_comm : forall a b : R, smul a b = smul b a;
  smul_1_r : forall a : R, smul a sone = a;
  of_int_1 : of_int 1 = sone;
  of_int_mul : forall m n : Z, of_int (m * n) = smul (of_int m) (of_int n)
}.
Arguments ScalarMulLaws R {_}.

(** [operator<] is a strict weak ordering, what [std::map] asks of its
    comparison (no NaN among the keys and arguments). *)
Class ScalarOrderLaws (R : Type) `{ScalarOps R} : Prop := {
  sltb_irrefl : forall a : R, sltb a a = false;
  sltb_trans : forall a b c : R, sltb a b = true -> sltb b c = true -> sltb a c = true;
  sltb_cotrans : forall a b c : R, sltb a c = true -> sltb a b = true \/ sltb b c = true
}.
Arguments ScalarOrderLaws R {_}.

(** The value type: [+=], [* double], [*= int], a default constructor and
    [setZero()], as Eigen's fixed-size vectors provide them. *)
Class VectorOps (R T : Type) : Type := {
  vzero : T;
  vadd : T -> T -> T;
  vscale : T -> R -> T;
  vdefault : T;                   (* T ret; *)
  setZero : T -> T                (* ret.setZero(); *)
}.

Class VectorLaws (R T : Type) `{ScalarOps R} `{VectorOps R T} : Prop := {
  vadd_assoc : forall u v w : T, vadd u (vadd v w) = vadd (vadd u v) w;
  vadd_0_l : forall v : T, vadd vzero v = v;
  vadd_0_r : forall v : T, vadd v vzero = v;
  vscale_1 : forall v : T, vscale v sone = v;
  vscale_vscale : forall (v : T) (a b : R), vscale (vscale v a) b = vscale v (smul a b);
  setZero_zero : forall v : T, setZero v = vzero
}.
Arguments VectorLaws R T {_ _}.

(** [std::pow(x, n)] for the exponents the code passes (an [int], at least 1):
    repeated multiplication. *)
Fixpoint pow_nat {R : Type} `{ScalarOps R} (x : R) (n : nat) : R :=
  match n with
  | O => sone
  | S n' => smul x (pow_nat x n')
  end.

Definition std_pow {R : Type} `{ScalarOps R} (x : R) (n : Z) : R := pow_nat x (Z.to_nat n).

(** ** Func: the interface *)

Record Func (R T : Type) : Type := {
  call : R -> outcome R T;                      (* operator()(t) *)
  derivative : R -> Z -> outcome R T;           (* derivative(t, order) *)
  domainLowerLimit : R;
  domainUpperLimit : R
}.

(** ** Polynomial *)

Record Polynomial (R T : Type) : Type := {
  Order : Z;                      (* template parameter *)
  coeff_ : list T;                (* std::array<T, Order + 1> *)
  t0_ : R
}.

(** What the types fix: a non-negative order and [Order + 1] coefficients. *)
Definition Polynomial_wf {R T : Type} (p : Polynomial R T) : Prop :=
  0 <= Order p /\ Z.of_nat (length (coeff_ p)) = Order p + 1.

Section PolynomialCode.
Context {R T : Type} `{ScalarOps R} `{VectorOps R T}.

Definition Polynomial_call (p : Polynomial R T) (t : R) : outcome R T :=
  ret <- array_get (coeff_ p) 0 ;;
  for_range (Order p)
    (fun i ret =>
       c <- array_get (coeff_ p) (i + 1) ;;
       Ret (vadd ret (vscale c (std_pow (ssub t (t0_ p)) (i + 1)))))
    ret.

Definition Polynomial_derivative (p : Polynomial R T) (t : R) (derivative_order : Z)
  : outcome R T :=
  if Order p <? derivative_order then
    Ret (setZero vdefault)
  else
    ret <- array_get (coeff_ p) derivative_order ;;
    ret <- for_range (derivative_order - 1)
             (fun j ret => Ret (vscale ret (of_int (derivative_order - j)))) ret ;;
    for_range (Order p - derivative_order)
      (fun i ret =>
         c <- array_get (coeff_ p) (i + 1 + derivative_order) ;;
         term <- for_range derivative_order
                   (fun j term => Ret (vscale term (of_int (i + 1 + derivative_order - j))))
                   (vscale c (std_pow (ssub t (t0_ p)) (i + 1))) ;;
         Ret (vadd ret term))
      ret.

Definition Polynomial_Func (p : Polynomial R T) : Func R T :=
  {| call := Polynomial_call p;
     derivative := Polynomial_derivative p;
     domainLowerLimit := double_lowest;
     domainUpperLimit := double_max |}.

(** [Constant(value)]: a [Polynomial<T, 0>] with the one coefficient and
    the default offset 0.0. *)
Definition Constant (value : T) : Polynomial R T :=
  {| Order := 0; coeff_ := [value]; t0_ := of_int 0 |}.

Definition Constant_call (c : Polynomial R T) (t : R) : outcome R T :=
  Polynomial_call c t.

End PolynomialCode.

(** ** std::map<double, std::shared_ptr<Func<T>>>

    The entries in key order.  Every operation below keeps the keys strictly
    increasing ([map_sorted]), the representation invariant of [std::map]. *)

Section MapCode.
Context {R V : Type} `{ScalarOps R}.

Definition map_t : Type := list (R * V).

(** [insert]: the entry goes to its place in key order; when an equivalent
    key is present the map is left as it is. *)
Fixpoint map_insert (k : R) (v : V) (m : map_t) : map_t :=
  match m with
  | [] => [(k, v)]
  | (k', v') :: m' =>
      if sltb k k' then (k, v) :: m
      else if sltb k' k then (k', v') :: map_insert k v m'
      else m
  end.

(** [lower_bound(t)]: the first entry whose key is not less than [t];
    [None] stands for [end()]. *)
Fixpoint map_lower_bound (t : R) (m : map_t) : option (R * V) :=
  match m with
  | [] => None
  | (k, v) :: m' => if sltb k t then map_lower_bound t m' else Some (k, v)
  end.

(** [rbegin()]: the last entry; [None] on the empty map, where
    dereferencing it is undefined. *)
Fixpoint map_rbegin (m : map_t) : option (R * V) :=
  match m with
  | [] => None
  | [e] => Some e
  | _ :: m' => map_rbegin m'
  end.

Definition map_empty (m : map_t) : bool :=
  match m with [] => true | _ => false end.

Definition deref {A : Type} (it : option A) : outcome R A :=
  match it with
  | Some e => Ret e
  | None => Undefined
  end.

Definition map_keys (m : map_t) : list R := map fst m.

Fixpoint map_sorted (m : map_t) : Prop :=
  match m with
  | [] => True
  | (k, _) :: m' => Forall (fun k' => sltb k k' = true) (map_keys m') /\ map_sorted m'
  end.

End MapCode.

(** ** PiecewiseFunc *)

Record PiecewiseFunc (R T : Type) : Type := {
  funcs_ : list (R * Func R T);
  tLowerLimit_ : R
}.

Section PiecewiseCode.
Context {R T : Type} `{ScalarOps R}.

(** The default constructor. *)
Definition PiecewiseFunc_new : PiecewiseFunc R T :=
  {| funcs_ := []; tLowerLimit_ := double_lowest |}.

(** [funcs_.rbegin()->first] *)
Definition last_key (pf : PiecewiseFunc R T) : outcome R R :=
  e <- deref (map_rbegin (funcs_ pf)) ;; Ret (fst e).

(** The left operand of [||] is evaluated first; the last key is read
    either by the right operand or by the arguments of the error message. *)
Definition checkArg (pf : PiecewiseFunc R T) (t : R) : outcome R unit :=
  if sltb t (tLowerLimit_ pf) then
    up <- last_key pf ;; Throw (OutOfDomain (tLowerLimit_ pf) t up)
  else
    up <- last_key pf ;;
    if sltb up t then Throw (OutOfDomain (tLowerLimit_ pf) t up)
    else Ret tt.

Definition PiecewiseFunc_call (pf : PiecewiseFunc R T) (t : R) : outcome R T :=
  _ <- checkArg pf t ;;
  funcIt <- deref (map_lower_bound t (funcs_ pf)) ;;
  call (snd funcIt) t.

Definition PiecewiseFunc_derivative (pf : PiecewiseFunc R T) (t : R) (order : Z)
  : outcome R T :=
  _ <- checkArg pf t ;;
  funcIt <- deref (map_lower_bound t (funcs_ pf)) ;;
  derivative (snd funcIt) t order.

Definition PiecewiseFunc_domainLowerLimit (pf : PiecewiseFunc R T) : R :=
  tLowerLimit_ pf.

Definition PiecewiseFunc_domainUpperLimit (pf : PiecewiseFunc R T) : R :=
  if map_empty (funcs_ pf) then double_max
  else match map_rbegin (funcs_ pf) with
       | Some e => fst e
       | None => double_max   (* not reached: the map is not empty *)
       end.

Definition clearFuncs (pf : PiecewiseFunc R T) : PiecewiseFunc R T :=
  {| funcs_ := []; tLowerLimit_ := double_lowest |}.

(** [appendFunc] has no check and no throw of its own: it returns. *)
Definition appendFunc (pf : PiecewiseFunc R T) (t : R) (func : Func R T)
  : outcome R (PiecewiseFunc R T) :=
  Ret {| funcs_ := map_insert t func (funcs_ pf); tLowerLimit_ := tLowerLimit_ pf |}.

Definition setDomainLowerLimit (pf : PiecewiseFunc R T) (t : R) : PiecewiseFunc R T :=
  {| funcs_ := funcs_ pf; tLowerLimit_ := t |}.

Definition PiecewiseFunc_Func (pf : PiecewiseFunc R T) : Func R T :=
  {| call := PiecewiseFunc_call pf;
     derivative := PiecewiseFunc_derivative pf;
     domainLowerLimit := PiecewiseFunc_domainLowerLimit pf;
     domainUpperLimit := PiecewiseFunc_domainUpperLimit pf |}.

(** A run of [appendFunc] calls, in order. *)
Fixpoint appendFuncs (pf : PiecewiseFunc R T) (segs : list (R * Func R T))
  : outcome R (PiecewiseFunc R T) :=
  match segs with
  | [] => Ret pf
  | (t, f) :: segs' => pf' <- appendFunc pf t f ;; appendFuncs pf' segs'
  end.

End PiecewiseCode.

(** ** The closed forms of the specification

    Written from the words of the specification, to be compared with
    [Polynomial_call] and [Polynomial_derivative]. *)

Section PolynomialSpec.
Context {R T : Type} `{ScalarOps R} `{VectorOps R T}.

(** n (n-1) ... (n-k+1), [k] factors *)
Fixpoint falling (n : Z) (k : nat) : Z :=
  match k with
  | O => 1
  | S k' => n * falling (n - 1) k'
  end.

Definition vsum (l : list T) : T := fold_right vadd vzero l.

Definition coeff_at (p : Polynomial R T) (i : nat) : T := nth i (coeff_ p) vzero.

(** sum over i = 0..Order of coeff[i] (t - t0)^i *)
Definition spec_value (p : Polynomial R T) (t : R) : T :=
  vsum (map (fun i => vscale (coeff_at p i) (pow_nat (ssub t (t0_ p)) i))
            (seq 0 (Z.to_nat (Order p) + 1))).

(** sum over i = 0..Order-k of coeff[i+k] (i+k)(i+k-1)...(i+1) (t - t0)^i *)
Definition spec_derivative (p : Polynomial R T) (t : R) (k : nat) : T :=
  vsum (map (fun i => vscale (vscale (coeff_at p (i + k))
                                     (of_int (falling (Z.of_nat (i + k)) k)))
                             (pow_nat (ssub t (t0_ p)) i))
            (seq 0 (Z.to_nat (Order p) - k + 1))).

End PolynomialSpec.

(** ** CentroidalManagerDdpZmp *)

Record Vector3d (R : Type) : Type := { vx : R; vy : R; vz : R }.
Record Vector2d (R : Type) : Type := { v2x : R; v2y : R }.

(** The parts of [CCC::DdpZmp] and of its [nmpc_ddp::DDPSolver<4, 3>] that the
    manager reads and writes: the constructor arguments, [config()] and
    [controlData().u_list]. *)
Record DdpZmp (R : Type) : Type := {
  ddp_mass : R;
  ddp_horizon_dt : R;
  horizon_steps : Z;              (* ddp_solver_->config().horizon_steps, an int *)
  max_iter : Z;                   (* ddp_solver_->config().max_iter *)
  u_list : list (Vector3d R)      (* ddp_solver_->controlData().u_list *)
}.

Record InitialParam (R : Type) : Type := {
  ip_pos : Vector3d R;
  ip_vel : Vector3d R;
  ip_u_list : list (Vector3d R)
}.

Record RefData (R : Type) : Type := { ref_zmp : Vector2d R; ref_com_z : R }.
Record PlannedData (R : Type) : Type := { pd_zmp : Vector2d R; pd_force_z : R }.

Record Configuration (R : Type) : Type := {
  horizonDuration : R;
  horizonDt : R;
  ddpMaxIter : Z;
  refComZ : R
}.

Record CentroidalManagerDdpZmp (R : Type) : Type := {
  config_ : Configuration R;
  robotMass_ : R;
  mpcCom_ : Vector3d R;
  mpcComVel_ : Vector3d R;
  ddp_ : option (DdpZmp R);       (* std::shared_ptr, null until reset() *)
  plannedZmp_ : Vector3d R;
  plannedForceZ_ : R
}.

(** What the manager calls and does not define: the base class, the CCC
    library, the foot manager and the conversion of a double quotient to int. *)
Record Collaborators (R : Type) : Type := {
  CentroidalManager_reset : CentroidalManagerDdpZmp R -> outcome R (CentroidalManagerDdpZmp R);
  DdpZmp_new : R -> R -> Z -> outcome R (DdpZmp R);
  planOnce : DdpZmp R -> (R -> RefData R) -> InitialParam R -> R
             -> outcome R (PlannedData R * DdpZmp R);
  calcRefZmp : R -> Vector3d R;
  constants_g : R;                                (* CCC::constants::g *)
  div_to_int : R -> R -> outcome R Z              (* static_cast<int>(a / b) *)
}.

Section ManagerCode.
Context {R : Type} `{ScalarOps R}.
Variable E : Collaborators R.

Definition set_max_iter (d : DdpZmp R) (n : Z) : DdpZmp R :=
  {| ddp_mass := ddp_mass d; ddp_horizon_dt := ddp_horizon_dt d;
     horizon_steps := horizon_steps d; max_iter := n; u_list := u_list d |}.

Definition set_ddp (m : CentroidalManagerDdpZmp R) (d : DdpZmp R) : CentroidalManagerDdpZmp R :=
  {| config_ := config_ m; robotMass_ := robotMass_ m; mpcCom_ := mpcCom_ m;
     mpcComVel_ := mpcComVel_ m; ddp_ := Some d;
     plannedZmp_ := plannedZmp_ m; plannedForceZ_ := plannedForceZ_ m |}.

Definition reset (m : CentroidalManagerDdpZmp R) : outcome R (CentroidalManagerDdpZmp R) :=
  m1 <- CentroidalManager_reset E m ;;
  steps <- div_to_int E (horizonDuration (config_ m1)) (horizonDt (config_ m1)) ;;
  ddp <- DdpZmp_new E (robotMass_ m1) (horizonDt (config_ m1)) steps ;;
  Ret (set_ddp m1 (set_max_iter ddp (ddpMaxIter (config_ m1)))).

Definition calcRefData (m : CentroidalManagerDdpZmp R) (t : R) : RefData R :=
  {| ref_zmp := {| v2x := vx (calcRefZmp E t); v2y := vy (calcRefZmp E t) |};
     ref_com_z := refComZ (config_ m) |}.

(** [u_list.size() == horizon_steps]: the int is converted to [size_t], so
    a negative count equals no size. *)
Definition size_eq_int (n : nat) (h : Z) : bool := Z.of_nat n =? h.

(** [std::vector::assign(count, value)] with an int count: a negative
    count converts to a size beyond [max_size()]. *)
Definition vector_assign {A : Type} (count : Z) (value : A) : outcome R (list A) :=
  if count <? 0 then Throw LengthError else Ret (repeat value (Z.to_nat count)).

(** The value the else branch of [runMpc] assigns at every step. *)
Definition nominal_input (m : CentroidalManagerDdpZmp R) : Vector3d R :=
  {| vx := vx (mpcCom_ m); vy := vy (mpcCom_ m);
     vz := smul (robotMass_ m) (constants_g E) |}.

Definition warm_start (m : CentroidalManagerDdpZmp R) (ddp : DdpZmp R)
  : outcome R (list (Vector3d R)) :=
  if size_eq_int (length (u_list ddp)) (horizon_steps ddp) then Ret (u_list ddp)
  else vector_assign (horizon_steps ddp) (nominal_input m).

(** The two assignments after [planOnce] returns. *)
Definition publish (m : CentroidalManagerDdpZmp R) (r : PlannedData R * DdpZmp R)
  : CentroidalManagerDdpZmp R :=
  {| config_ := config_ m; robotMass_ := robotMass_ m; mpcCom_ := mpcCom_ m;
     mpcComVel_ := mpcComVel_ m; ddp_ := Some (snd r);
     plannedZmp_ := {| vx := v2x (pd_zmp (fst r)); vy := v2y (pd_zmp (fst r));
                       vz := of_int 0 |};
     plannedForceZ_ := pd_force_z (fst r) |}.

(** [now] is [ctl().t()]. *)
Definition runMpc (m : CentroidalManagerDdpZmp R) (now : R)
  : outcome R (CentroidalManagerDdpZmp R) :=
  ddp <- deref (ddp_ m) ;;
  u <- warm_start m ddp ;;
  r <- planOnce E ddp (calcRefData m)
         {| ip_pos := mpcCom_ m; ip_vel := mpcComVel_ m; ip_u_list := u |} now ;;
  Ret (publish m r).

(** The call of the solver in [runMpc], with the initial guess [u]. *)
Definition solve_with (m : CentroidalManagerDdpZmp R) (ddp : DdpZmp R) (now : R)
           (u : list (Vector3d R)) : outcome R (CentroidalManagerDdpZmp R) :=
  r <- planOnce E ddp (calcRefData m)
         {| ip_pos := mpcCom_ m; ip_vel := mpcComVel_ m; ip_u_list := u |} now ;;
  Ret (publish m r).

End ManagerCode.

(** ** Exact rationals as doubles *)

Definition Q_ltb (a b : Q) : bool :=
  match (a ?= b)%Q with Lt => true | _ => false end.

(** The largest finite double, (2 - 2^-52) 2^1023. *)
Definition Q_double_max : Q := inject_Z (2 ^ 1024 - 2 ^ 971).

#[export] Instance Q_ScalarOps : ScalarOps Q := {|
  sone := 1%Q;
  smul := Qmult;
  ssub := Qminus;
  sltb := Q_ltb;
  of_int := inject_Z;
  double_lowest := Qopp Q_double_max;
  double_max := Q_double_max
|}.

(** A scalar-valued [T]: a one-dimensional vector. *)
#[export] Instance Q_VectorOps : VectorOps Q Q := {|
  vzero := 0%Q;
  vadd := Qplus;
  vscale := Qmult;
  vdefault := 0%Q;
  setZero := fun _ => 0%Q
|}.

(** [static_cast<int>(a / b)]: the quotient truncated toward zero; undefined
    when the quotient is not finite or does not fit an int. *)
Definition Q_div_to_int (a b : Q) : outcome Q Z :=
  if Qeq_bool b 0 then Undefined
  else
    let q := (a / b)%Q in
    let z := Z.quot (Qnum q) (Zpos (Qden q)) in
    if (- 2 ^ 31 <=? z) && (z <? 2 ^ 31) then Ret z else Undefined.

(** A fixed-size vector-valued [T], [Eigen::Vector3d]: the operations act
    on each component; a default-constructed vector holds whatever was in
    memory (here 1, 2, 3) until [setZero()] overwrites it. *)
Definition Q3_add (a b : Vector3d Q) : Vector3d Q :=
  {| vx := Qplus (vx a) (vx b); vy := Qplus (vy a) (vy b); vz := Qplus (vz a) (vz b) |}.

Definition Q3_scale (a : Vector3d Q) (c : Q) : Vector3d Q :=
  {| vx := Qmult (vx a) c; vy := Qmult (vy a) c; vz := Qmult (vz a) c |}.

Definition Q3_zero : Vector3d Q := {| vx := 0%Q; vy := 0%Q; vz := 0%Q |}.

#[export] Instance Q3_VectorOps : VectorOps Q (Vector3d Q) := {|
  vzero := Q3_zero;
  vadd := Q3_add;
  vscale := Q3_scale;
  vdefault := {| vx := 1%Q; vy := 2%Q; vz := 3%Q |};
  setZero := fun _ => Q3_zero
|}.

(** A [LinearPolynomial<Eigen::Vector3d>] from (0, 0, 1) with slope
    (1, 2, 0), offset 1. *)
Definition scenario_line : Polynomial Q (Vector3d Q) :=
  {| Order := 1;
     coeff_ := [ {| vx := 0%Q; vy := 0%Q; vz := 1%Q |};
                 {| vx := 1%Q; vy := 2%Q; vz := 0%Q |} ];
     t0_ := 1%Q |}.

(** ** Scenarios of the specification, over the rationals *)

(** [Polynomial<scalar, 2>] with coefficients [1, 2, 3] and [t0 = 0]. *)
Definition scenario_polynomial : Polynomial Q Q :=
  {| Order := 2; coeff_ := [1%Q; 2%Q; 3%Q]; t0_ := 0%Q |}.

(** The scenario of the specification: [Constant(5)] up to 1, [Constant(9)]
    up to 2, lower limit 0. *)
Definition scenario_segments : list (Q * Func Q Q) :=
  [(1%Q, Polynomial_Func (Constant 5%Q)); (2%Q, Polynomial_Func (Constant 9%Q))].

Definition scenario_piecewise : PiecewiseFunc Q Q :=
  {| funcs_ := scenario_segments; tLowerLimit_ := 0%Q |}.

(** Stand-ins for the collaborators, to run the manager on concrete inputs:
    a base-class reset that changes nothing, a solver constructor that stores
    its arguments and starts without a control sequence, a solver that
    returns the first step of its initial guess and keeps the guess as its
    control sequence, a reference ZMP at the origin, and g = 9.80665. *)
Definition Q_collaborators : Collaborators Q :=
  {| CentroidalManager_reset := fun m => Ret m;
     DdpZmp_new := fun mass dt steps =>
       Ret {| ddp_mass := mass; ddp_horizon_dt := dt; horizon_steps := steps;
              max_iter := 1; u_list := [] |};
     planOnce := fun ddp _ ip _ =>
       match ip_u_list ip with
       | [] => Undefined
       | u :: _ =>
           Ret ({| pd_zmp := {| v2x := vx u; v2y := vy u |}; pd_force_z := vz u |},
                {| ddp_mass := ddp_mass ddp; ddp_horizon_dt := ddp_horizon_dt ddp;
                   horizon_steps := horizon_steps ddp; max_iter := max_iter ddp;
                   u_list := ip_u_list ip |})
       end;
     calcRefZmp := fun _ => {| vx := 0%Q; vy := 0%Q; vz := 0%Q |};
     constants_g := (980665 # 100000)%Q;
     div_to_int := Q_div_to_int |}.

(** A manager before [reset()]: mass 40, CoM at (1/10, 0, 4/5), at rest. *)
Definition scenario_manager (duration dt : Q) : CentroidalManagerDdpZmp Q :=
  {| config_ := {| horizonDuration := duration; horizonDt := dt; ddpMaxIter := 3;
                   refComZ := (4 # 5)%Q |};
     robotMass_ := 40%Q;
     mpcCom_ := {| vx := (1 # 10)%Q; vy := 0%Q; vz := (4 # 5)%Q |};
     mpcComVel_ := {| vx := 0%Q; vy := 0%Q; vz := 0%Q |};
     ddp_ := None;
     plannedZmp_ := {| vx := 0%Q; vy := 0%Q; vz := 0%Q |};
     plannedForceZ_ := 0%Q |}.

(** The manager of the scenario after [reset()] with a horizon of 1/10 s in
    steps of 1/50 s. *)
Definition scenario_ddp : DdpZmp Q :=
  {| ddp_mass := 40%Q; ddp_horizon_dt := (1 # 50)%Q; horizon_steps := 5;
     max_iter := 3; u_list := [] |}.

(** ** Loops that always return

    The state after [fuel] rounds of a body that cannot fail. *)

Fixpoint loop_pure {St : Type} (fuel : nat) (i : Z) (f : Z -> St -> St) (s : St) : St :=
  match fuel with
  | O => s
  | S fuel' => loop_pure fuel' (i + 1) f (f i s)
  end.

(** ** Containers as a program builds them *)

(** The containers a caller can reach through the public members:
    construction, [clearFuncs], [appendFunc] and [setDomainLowerLimit]. *)
Inductive built {R T : Type} `{ScalarOps R} : PiecewiseFunc R T -> Prop :=
| built_new : built PiecewiseFunc_new
| built_clear (pf : PiecewiseFunc R T) : built pf -> built (clearFuncs pf)
| built_append (pf pf' : PiecewiseFunc R T) (t : R) (func : Func R T) :
    built pf -> appendFunc pf t func = Ret pf' -> built pf'
| built_lower (pf : PiecewiseFunc R T) (t : R) :
    built pf -> built (setDomainLowerLimit pf t).

(** Every segment is a polynomial, of whatever order. *)
Definition polynomial_segments {R T : Type} `{ScalarOps R} `{VectorOps R T}
           (pf : PiecewiseFunc R T) : Prop :=
  forall k f, In (k, f) (funcs_ pf) ->
              exists p : Polynomial R T, Polynomial_wf p /\ f = Polynomial_Func p.

(** The manager of the scenario after [reset()], and after its first tick
    with the stand-in solver. *)
Definition scenario_ready : CentroidalManagerDdpZmp Q :=
  set_ddp (scenario_manager (1 # 10) (1 # 50)) scenario_ddp.

Definition scenario_ticked : CentroidalManagerDdpZmp Q :=
  publish scenario_ready
          ({| pd_zmp := {| v2x := 1 # 10; v2y := 0%Q |};
              pd_force_z := Qmult 40%Q (980665 # 100000) |},
           {| ddp_mass := 40%Q; ddp_horizon_dt := 1 # 50; horizon_steps := 5;
              max_iter := 3;
              u_list := repeat {| vx := 1 # 10; vy := 0%Q;
                                  vz := Qmult 40%Q (980665 # 100000) |} 5 |}).

(** ** The solver seen through a length check *)

(** The collaborators with a solver that refuses an initial guess whose
    length is not the horizon step count. *)
Definition length_checked {R : Type} (E : Collaborators R) : Collaborators R :=
  {| CentroidalManager_reset := CentroidalManager_reset E;
     DdpZmp_new := DdpZmp_new E;
     planOnce := fun ddp ref ip now =>
       if Z.of_nat (length (ip_u_list ip)) =? horizon_steps ddp
       then planOnce E ddp ref ip now
       else Undefined;
     calcRefZmp := calcRefZmp E;
     constants_g := constants_g E;
     div_to_int := div_to_int E |}.

(** The manager with a new CoM estimate, as the update between two ticks
    leaves it. *)
Definition set_com {R : Type} (m : CentroidalManagerDdpZmp R) (com vel : Vector3d R)
  : CentroidalManagerDdpZmp R :=
  {| config_ := config_ m; robotMass_ := robotMass_ m; mpcCom_ := com;
     mpcComVel_ := vel; ddp_ := ddp_ m;
     plannedZmp_ := plannedZmp_ m; plannedForceZ_ := plannedForceZ_ m |}.

(** ** InitialState

    The state of the FSM that waits for the start signal and then brings up
    the tasks and the managers.  The controller is seen through the members
    the state touches: the clock, [enableManagerUpdate_], whether the GUI
    shows the Start button, and the calls made on the tasks, the solver, the
    managers and the logger, in order. *)
Module InitialState.
Import String.

Section Model.
Context {R : Type} `{ScalarOps R}.
Variable Foot : Type.
Variable Both : list Foot.            (* Feet::Both *)

Inductive Task : Type :=
| comTask_
| baseOriTask_
| footTasks_ (foot : Foot).

Inductive Call : Type :=
| State_start
| task_reset (task : Task)
| solver_addTask (task : Task)
| footManager_reset
| centroidalManager_reset
| centroidalManager_setAnchorFrame
| footManager_addToGUI
| centroidalManager_addToGUI
| footManager_addToLogger
| centroidalManager_addToLogger.

Record Controller : Type := {
  t : R;                              (* ctl().t() *)
  enableManagerUpdate_ : bool;
  gui_Start : bool;                   (* the element "Start" of category "BWC" *)
  calls : list Call
}.

(** [config_]: whether it has "configs", and under it "autoStartTime". *)
Record State : Type := {
  phase_ : Z;
  config_ : option (option R);
  output_ : option string
}.

Definition set_phase (st : State) (phase : Z) : State :=
  {| phase_ := phase; config_ := config_ st; output_ := output_ st |}.

Definition call (ctl : Controller) (cs : list Call) : Controller :=
  {| t := t ctl; enableManagerUpdate_ := enableManagerUpdate_ ctl;
     gui_Start := gui_Start ctl; calls := calls ctl ++ cs |}.

Definition start (st : State) (ctl : Controller) : State * Controller :=
  ({| phase_ := 0; config_ := config_ st; output_ := Some "OK"%string |},
   {| t := t ctl; enableManagerUpdate_ := enableManagerUpdate_ ctl;
      gui_Start := true; calls := calls ctl ++ [State_start] |}).

(** The callback of the Start button. *)
Definition press_Start (st : State) : State := set_phase st 1.

(** What the branch [phase_ == 1] calls, in order. *)
Definition bring_up : list Call :=
  [task_reset comTask_; solver_addTask comTask_;
   task_reset baseOriTask_; solver_addTask baseOriTask_]
  ++ flat_map (fun foot => [task_reset (footTasks_ foot); solver_addTask (footTasks_ foot)]) Both
  ++ [footManager_reset; centroidalManager_reset;
      centroidalManager_setAnchorFrame;
      footManager_addToGUI; centroidalManager_addToGUI].

Definition add_loggers : list Call :=
  [footManager_addToLogger; centroidalManager_addToLogger].

Definition run (st : State) (ctl : Controller) : bool * State * Controller :=
  if phase_ st =? 0 then
    (false,
     match config_ st with
     | Some (Some autoStartTime) =>
         if sltb autoStartTime (t ctl) then set_phase st 1 else st
     | _ => st
     end,
     ctl)
  else if phase_ st =? 1 then
    (false, set_phase st 2,
     {| t := t ctl; enableManagerUpdate_ := true; gui_Start := false;
        calls := calls ctl ++ bring_up |})
  else
    (true, set_phase st 3, call ctl add_loggers).

Definition teardown (st : State) (ctl : Controller) : State * Controller := (st, ctl).

(** The control loop: the clock is set to each time in turn and [run] is
    called; the answers are collected. *)
Definition at_time (ctl : Controller) (now : R) : Controller :=
  {| t := now; enableManagerUpdate_ := enableManagerUpdate_ ctl;
     gui_Start := gui_Start ctl; calls := calls ctl |}.

Fixpoint run_ticks (times : list R) (st : State) (ctl : Controller)
  : list bool * State * Controller :=
  match times with
  | [] => ([], st, ctl)
  | now :: times' =>
      let '(done, st1, ctl1) := run st (at_time ctl now) in
      let '(dones, st2, ctl2) := run_ticks times' st1 ctl1 in
      (done :: dones, st2, ctl2)
  end.

(** What can happen after [start]: a tick at some time, or a press of the
    Start button while the GUI shows it. *)
Inductive reachable (st0 : State) (ctl0 : Controller) : State -> Controller -> Prop :=
| reach_start : reachable st0 ctl0 (fst (start st0 ctl0)) (snd (start st0 ctl0))
| reach_run (st : State) (ctl : Controller) (now : R) :
    reachable st0 ctl0 st ctl ->
    reachable st0 ctl0 (snd (fst (run st (at_time ctl now)))) (snd (run st (at_time ctl now)))
| reach_press (st : State) (ctl : Controller) :
    reachable st0 ctl0 st ctl -> gui_Start ctl = true ->
    reachable st0 ctl0 (press_Start st) ctl.

End Model.
End InitialState.

(** A robot with two feet, a state configured to start by itself after
    time 2, and a controller that has made no call yet. *)
Inductive scenario_Foot : Type := Left | Right.

Definition scenario_state : InitialState.State (R := Q) :=
  {| InitialState.phase_ := 0; InitialState.config_ := Some (Some 2%Q);
     InitialState.output_ := None |}.

Definition scenario_controller : InitialState.Controller (R := Q) scenario_Foot :=
  {| InitialState.t := 0%Q; InitialState.enableManagerUpdate_ := false;
     InitialState.gui_Start := false; InitialState.calls := [] |}.

(** ** Laws of the rational instance *)

Lemma Q_ltb_lt (a b : Q) : Q_ltb a b = true <-> (a < b)%Q.
Proof.
  unfold Q_ltb. rewrite Qlt_alt.
  destruct (a ?= b)%Q; split; intro E; try reflexivity; discriminate E.
Qed.

#[export] Instance Q_ScalarOrderLaws : ScalarOrderLaws Q.
Proof.
  split; simpl.
  - intro a. destruct (Q_ltb a a) eqn:E; [|reflexivity].
    apply Q_ltb_lt in E. exfalso. exact (Qlt_irrefl a E).
  - intros a b c Hab Hbc. apply Q_ltb_lt. apply Q_ltb_lt in Hab, Hbc.
    exact (Qlt_trans _ _ _ Hab Hbc).
  - intros a b c Hac. apply Q_ltb_lt in Hac.
    destruct (Qlt_le_dec a b) as [Hab | Hba].
    + left. apply Q_ltb_lt. exact Hab.
    + right. apply Q_ltb_lt. exact (Qle_lt_trans _ _ _ Hba Hac).
Qed.

(** Rational arithmetic up to equality of numerators and denominators. *)
Lemma Q_mul_assoc (a b c : Q) : Qmult a (Qmult b c) = Qmult (Qmult a b) c.
Proof.
  destruct a as [a1 a2], b as [b1 b2], c as [c1 c2]. unfold Qmult. simpl.
  now rewrite Z.mul_assoc, Pos.mul_assoc.
Qed.

Lemma Q_mul_comm (a b : Q) : Qmult a b = Qmult b a.
Proof.
  destruct a as [a1 a2], b as [b1 b2]. unfold Qmult. simpl.
  now rewrite Z.mul_comm, Pos.mul_comm.
Qed.

Lemma Q_mul_1_r (a : Q) : Qmult a 1%Q = a.
Proof.
  destruct a as [a1 a2]. unfold Qmult. simpl.
  now rewrite Z.mul_1_r, Pos.mul_1_r.
Qed.

Lemma Q_add_assoc (a b c : Q) : Qplus a (Qplus b c) = Qplus (Qplus a b) c.
Proof.
  destruct a as [a1 a2], b as [b1 b2], c as [c1 c2]. unfold Qplus. simpl.
  rewrite !Pos2Z.inj_mul, Pos.mul_assoc. f_equal. ring.
Qed.

Lemma Q_add_0_l (a : Q) : Qplus 0%Q a = a.
Proof.
  destruct a as [a1 a2]. unfold Qplus. simpl. f_equal. lia.
Qed.

Lemma Q_add_0_r (a : Q) : Qplus a 0%Q = a.
Proof.
  destruct a as [a1 a2]. unfold Qplus. simpl.
  rewrite Pos.mul_1_r. f_equal. lia.
Qed.

#[export] Instance Q_ScalarMulLaws : ScalarMulLaws Q.
Proof.
  split; simpl.
  - exact Q_mul_assoc.
  - exact Q_mul_comm.
  - exact Q_mul_1_r.
  - reflexivity.
  - intros m n. reflexivity.
Qed.

#[export] Instance Q_VectorLaws : VectorLaws Q Q.
Proof.
  split; simpl.
  - exact Q_add_assoc.
  - exact Q_add_0_l.
  - exact Q_add_0_r.
  - exact Q_mul_1_r.
  - intros v a b. symmetry. apply Q_mul_assoc.
  - reflexivity.
Qed.

#[export] Instance Q3_VectorLaws : VectorLaws Q (Vector3d Q).
Proof.
  split; cbn [vadd vscale vzero setZero Q3_VectorOps sone smul Q_ScalarOps].
  - intros u v w. unfold Q3_add. cbn [vx vy vz]. now rewrite !Q_add_assoc.
  - intros [a b c]. unfold Q3_add. cbn [vx vy vz Q3_zero]. now rewrite !Q_add_0_l.
  - intros [a b c]. unfold Q3_add. cbn [vx vy vz Q3_zero]. now rewrite !Q_add_0_r.
  - intros [a b c]. unfold Q3_scale. cbn [vx vy vz]. now rewrite !Q_mul_1_r.
  - intros [a b c] x y. unfold Q3_scale. cbn [vx vy vz]. now rewrite <- !Q_mul_assoc.
  - reflexivity.
Qed.

(** ** Lemmas on loops and arrays *)

Lemma for_loop_pure {R St : Type} (body : Z -> St -> outcome R St) (f : Z -> St -> St) :
  forall (fuel : nat) (i : Z) (s : St),
    (forall j s', i <= j < i + Z.of_nat fuel -> body j s' = Ret (f j s')) ->
    for_loop fuel i body s = Ret (loop_pure fuel i f s).
Proof.
  induction fuel as [|fuel IH]; intros i s Hbody; simpl.
  - reflexivity.
  - rewrite Hbody by lia. simpl. apply IH.
    intros j s' Hj. apply Hbody. lia.
Qed.

Lemma array_get_in_range {R A : Type} (a : list A) (i : Z) (d : A) :
  0 <= i < Z.of_nat (length a) ->
  array_get (R := R) a i = Ret (nth (Z.to_nat i) a d).
Proof.
  intros Hi. unfold array_get.
  destruct (i <? 0) eqn:Hneg; [apply Z.ltb_lt in Hneg; lia|].
  destruct (nth_error a (Z.to_nat i)) as [v|] eqn:Hnth.
  - f_equal. symmetry. apply nth_error_nth. exact Hnth.
  - apply nth_error_None in Hnth. lia.
Qed.

Lemma falling_S_r (k : nat) :
  forall n : Z, falling n (S k) = falling n k * (n - Z.of_nat k).
Proof.
  induction k as [|k IH]; intro n.
  - cbn [falling Z.of_nat]. ring.
  - change (falling n (S (S k))) with (n * falling (n - 1) (S k)).
    rewrite IH. change (falling n (S k)) with (n * falling (n - 1) k).
    rewrite Nat2Z.inj_succ. ring.
Qed.

Section PolynomialProofs.
Context {R T : Type} `{ScalarOps R} `{VectorOps R T}.
Context {HM : ScalarMulLaws R} {HV : VectorLaws R T}.

(** A run of [*=] by the ints a, a-1, ... multiplies by their product. *)
Lemma loop_scale (a : Z) :
  forall (fuel : nat) (i : Z) (v : T),
    loop_pure fuel i (fun j r => vscale r (of_int (a - j))) v
    = vscale v (of_int (falling (a - i) fuel)).
Proof.
  induction fuel as [|fuel IH]; intros i v; simpl.
  - now rewrite of_int_1, vscale_1.
  - rewrite IH, vscale_vscale, <- of_int_mul.
    replace (a - (i + 1)) with (a - i - 1) by lia. reflexivity.
Qed.

(** A run of [+=] adds the sum of its terms. *)
Lemma loop_sum (g : Z -> T) :
  forall (fuel : nat) (i : Z) (v : T),
    loop_pure fuel i (fun j r => vadd r (g j)) v
    = vadd v (vsum (map (fun d => g (i + Z.of_nat d)) (seq 0 fuel))).
Proof.
  induction fuel as [|fuel IH]; intros i v.
  - simpl. now rewrite vadd_0_r.
  - cbn [loop_pure]. rewrite IH.
    rewrite <- cons_seq, <- seq_shift, map_cons, map_map.
    cbn [vsum fold_right]. rewrite vadd_assoc. rewrite Z.add_0_r.
    f_equal. unfold vsum. f_equal. apply map_ext. intro d. f_equal. lia.
Qed.

Lemma Polynomial_call_spec (p : Polynomial R T) (t : R) :
  Polynomial_wf p ->
  Polynomial_call p t = Ret (spec_value p t).
Proof.
  intros [Hord Hwf]. unfold Polynomial_call.
  rewrite (array_get_in_range (coeff_ p) vzero) by lia. simpl bind.
  unfold for_range.
  rewrite (for_loop_pure _
             (fun i ret => vadd ret (vscale (coeff_at p (Z.to_nat (i + 1)))
                                            (std_pow (ssub t (t0_ p)) (i + 1))))).
  - f_equal. rewrite loop_sum. unfold spec_value.
    rewrite Nat.add_1_r, <- cons_seq, <- seq_shift, map_cons, map_map.
    cbn [vsum fold_right pow_nat]. rewrite vscale_1. f_equal.
    unfold vsum. f_equal. apply map_ext. intro d. unfold std_pow.
    replace (Z.to_nat (0 + Z.of_nat d + 1)) with (S d) by lia. reflexivity.
  - intros j s' Hj.
    rewrite (array_get_in_range (coeff_ p) vzero) by lia. reflexivity.
Qed.

Lemma scale_loop_falling (a : Z) (n : Z) (v : T) :
  for_range (R := R) n (fun j term => Ret (vscale term (of_int (a - j)))) v
  = Ret (vscale v (of_int (falling a (Z.to_nat n)))).
Proof.
  unfold for_range.
  rewrite (for_loop_pure _ (fun j r => vscale r (of_int (a - j)))).
  - rewrite loop_scale, Z.sub_0_r. reflexivity.
  - reflexivity.
Qed.

Lemma Polynomial_derivative_spec (p : Polynomial R T) (t : R) (k : Z) :
  Polynomial_wf p -> 0 < k <= Order p ->
  Polynomial_derivative p t k = Ret (spec_derivative p t (Z.to_nat k)).
Proof.
  intros [Hord Hwf] Hk. unfold Polynomial_derivative.
  destruct (Order p <? k) eqn:Hgt; [apply Z.ltb_lt in Hgt; lia|].
  rewrite (array_get_in_range (coeff_ p) vzero) by lia. cbn [bind].
  rewrite scale_loop_falling. cbn [bind].
  unfold for_range at 1.
  rewrite (for_loop_pure _
             (fun i ret =>
                vadd ret (vscale (vscale (coeff_at p (Z.to_nat (i + 1 + k)))
                                         (std_pow (ssub t (t0_ p)) (i + 1)))
                                 (of_int (falling (i + 1 + k) (Z.to_nat k)))))).
  - f_equal. rewrite loop_sum. unfold spec_derivative.
    replace (Z.to_nat (Order p) - Z.to_nat k + 1)%nat
      with (S (Z.to_nat (Order p - k))) by lia.
    rewrite <- cons_seq, <- seq_shift, map_cons, map_map.
    cbn [vsum fold_right pow_nat]. rewrite vscale_1. f_equal.
    + change (nth (Z.to_nat k) (coeff_ p) vzero) with (coeff_at p (0 + Z.to_nat k)).
      do 2 f_equal.
      replace (Z.to_nat k) with (S (Z.to_nat (k - 1))) at 2 by lia.
      rewrite falling_S_r.
      replace (Z.of_nat (0 + Z.to_nat k)) with k by lia.
      replace (k - Z.of_nat (Z.to_nat (k - 1))) with 1 by lia.
      now rewrite Z.mul_1_r.
    + unfold vsum. f_equal. apply map_ext. intro d.
      rewrite !vscale_vscale, (smul_comm (std_pow _ _)). unfold std_pow.
      replace (Z.to_nat (0 + Z.of_nat d + 1 + k)) with (S d + Z.to_nat k)%nat by lia.
      replace (Z.to_nat (0 + Z.of_nat d + 1)) with (S d) by lia.
      replace (0 + Z.of_nat d + 1 + k) with (Z.of_nat (S d + Z.to_nat k)) by lia.
      reflexivity.
  - intros j s' Hj.
    rewrite (array_get_in_range (coeff_ p) vzero) by lia. cbn [bind].
    rewrite scale_loop_falling. reflexivity.
Qed.

Lemma Polynomial_derivative_above (p : Polynomial R T) (t : R) (k : Z) :
  Order p < k -> Polynomial_derivative p t k = Ret vzero.
Proof.
  intro Hk. unfold Polynomial_derivative.
  apply Z.ltb_lt in Hk. rewrite Hk. now rewrite setZero_zero.
Qed.

End PolynomialProofs.

(** ** Polynomial and Constant: the claims *)

(** C6: for every polynomial with [Order + 1] coefficients and offset [t0],
    [operator()(t)] returns the sum over i = 0..Order of coeff[i] (t - t0)^i;
    with coefficients [1, 2, 3] and t0 = 0 the value at 2 is 17; a [Constant]
    returns its stored value for every argument. *)
Theorem Polynomial_call_is_power_sum :
  (forall (R T : Type) (SO : ScalarOps R) (VO : VectorOps R T),
      VectorLaws R T ->
      forall (p : Polynomial R T) (t : R),
        Polynomial_wf p -> Polynomial_call p t = Ret (spec_value p t))
  /\ Polynomial_call scenario_polynomial 2%Q = Ret 17%Q
  /\ (forall (R T : Type) (SO : ScalarOps R) (VO : VectorOps R T) (value : T) (t : R),
         Constant_call (Constant value) t = Ret value).
Proof.
  split; [|split].
  - intros R T SO VO HV p t Hwf. now apply Polynomial_call_spec.
  - reflexivity.
  - intros. reflexivity.
Qed.

Lemma Polynomial_call_is_power_sum_witness :
  Polynomial_call scenario_polynomial 2%Q = Ret (spec_value scenario_polynomial 2%Q).
Proof.
  apply (proj1 Polynomial_call_is_power_sum Q Q Q_ScalarOps Q_VectorOps Q_VectorLaws).
  split; [discriminate | reflexivity].
Defined.

(** C1: for 0 < k <= Order, [derivative(t, k)] returns the analytic k-th
    derivative, the sum over i = 0..Order-k of coeff[i+k] scaled by the falling
    factorial (i+k)(i+k-1)...(i+1) times (t - t0)^i; with coefficients
    [1, 2, 3] and t0 = 0, derivative(2, 1) = 14 and derivative(2, 2) = 6. *)
Theorem Polynomial_derivative_is_analytic :
  (forall (R T : Type) (SO : ScalarOps R) (VO : VectorOps R T),
      ScalarMulLaws R -> VectorLaws R T ->
      forall (p : Polynomial R T) (t : R) (k : Z),
        Polynomial_wf p -> 0 < k <= Order p ->
        Polynomial_derivative p t k = Ret (spec_derivative p t (Z.to_nat k)))
  /\ Polynomial_derivative scenario_polynomial 2%Q 1 = Ret 14%Q
  /\ Polynomial_derivative scenario_polynomial 2%Q 2 = Ret 6%Q.
Proof.
  split; [|split].
  - intros R T SO VO HM HV p t k Hwf Hk. now apply Polynomial_derivative_spec.
  - reflexivity.
  - reflexivity.
Qed.

Lemma Polynomial_derivative_is_analytic_witness :
  Polynomial_derivative scenario_polynomial 2%Q 1
  = Ret (spec_derivative scenario_polynomial 2%Q 1).
Proof.
  apply (proj1 Polynomial_derivative_is_analytic Q Q Q_ScalarOps Q_VectorOps
               Q_ScalarMulLaws Q_VectorLaws scenario_polynomial 2%Q 1).
  - split; [discriminate | reflexivity].
  - split; [reflexivity | discriminate].
Defined.

(** C5: for every derivative order k greater than Order, [derivative(t, k)]
    returns the additive identity of T at every t; so the (Order+1)-th
    derivative is zero everywhere. *)
Theorem Polynomial_derivative_above_order :
  forall (R T : Type) (SO : ScalarOps R) (VO : VectorOps R T),
    VectorLaws R T ->
    forall (p : Polynomial R T) (t : R),
      (forall k : Z, Order p < k ->
         exists z : T, Polynomial_derivative p t k = Ret z
                       /\ forall v : T, vadd z v = v /\ vadd v z = v)
      /\ Polynomial_derivative p t (Order p + 1) = Ret vzero.
Proof.
  intros R T SO VO HV p t. split.
  - intros k Hk. exists vzero. split.
    + now apply Polynomial_derivative_above.
    + intro v. split; [apply vadd_0_l | apply vadd_0_r].
  - apply Polynomial_derivative_above. lia.
Qed.

Lemma Polynomial_derivative_above_order_witness :
  exists z : Vector3d Q,
    Polynomial_derivative scenario_line 3%Q 2 = Ret z
    /\ forall v : Vector3d Q, vadd z v = v /\ vadd v z = v.
Proof.
  exact (proj1 (Polynomial_derivative_above_order Q3_VectorLaws scenario_line 3%Q)
               2 eq_refl).
Defined.

(** ** The ordered map *)

Section MapProofs.
Context {R V : Type} `{ScalarOps R}.

Lemma map_rbegin_In (m : list (R * V)) (e : R * V) :
  map_rbegin m = Some e -> In e m.
Proof.
  induction m as [|a m IH]; intro Hl; [discriminate|].
  destruct m as [|b m'].
  - injection Hl as He. subst e. now left.
  - right. apply IH. exact Hl.
Qed.

Lemma map_rbegin_nonempty (m : list (R * V)) :
  m <> [] -> exists e, map_rbegin m = Some e.
Proof.
  induction m as [|a m IH]; intro Hne; [contradiction|].
  destruct m as [|b m'].
  - now exists a.
  - destruct IH as [e He]; [discriminate|]. now exists e.
Qed.

(** When the last key is not below [t], [lower_bound(t)] is not [end()]. *)
Lemma map_lower_bound_found (m : list (R * V)) (t : R) (e : R * V) :
  map_rbegin m = Some e -> sltb (fst e) t = false ->
  exists k f, map_lower_bound t m = Some (k, f) /\ In (k, f) m /\ sltb k t = false.
Proof.
  induction m as [|[k f] m IH]; intros Hl Hle; [discriminate|].
  cbn [map_lower_bound]. destruct (sltb k t) eqn:Hk.
  - destruct m as [|b m'].
    + injection Hl as He. subst e. cbn [fst] in Hle. congruence.
    + destruct IH as (k' & f' & Hlb & Hin & Hk'); [exact Hl | exact Hle |].
      exists k', f'. repeat split; [exact Hlb | now right | exact Hk'].
  - exists k, f. repeat split; [now left | exact Hk].
Qed.

(** The entry after a run of keys below [t] is the one found. *)
Lemma map_lower_bound_split (l1 l2 : list (R * V)) (k : R) (f : V) (t : R) :
  Forall (fun e => sltb (fst e) t = true) l1 -> sltb k t = false ->
  map_lower_bound t (l1 ++ (k, f) :: l2) = Some (k, f).
Proof.
  intros Hl1 Hk. induction Hl1 as [|[k1 f1] l1 Hk1 _ IH]; cbn [app map_lower_bound].
  - now rewrite Hk.
  - cbn [fst] in Hk1. now rewrite Hk1.
Qed.

Context {HO : ScalarOrderLaws R}.

Lemma sltb_asym (a b : R) : sltb a b = true -> sltb b a = false.
Proof.
  intro Hab. destruct (sltb b a) eqn:Hba; [|reflexivity].
  rewrite <- (sltb_irrefl a). symmetry. exact (sltb_trans _ _ _ Hab Hba).
Qed.

Lemma sltb_lt_le (a b c : R) : sltb a b = true -> sltb c b = false -> sltb a c = true.
Proof.
  intros Hab Hcb. destruct (sltb_cotrans a c b Hab) as [Hx | Hx]; congruence.
Qed.

Lemma map_sorted_app (l1 l2 : list (R * V)) (k : R) (f : V) :
  map_sorted (l1 ++ (k, f) :: l2) ->
  Forall (fun e => sltb (fst e) k = true) l1.
Proof.
  induction l1 as [|[k1 f1] l1 IH]; intro Hs; [constructor|].
  cbn [app map_sorted] in Hs. destruct Hs as [Hall Hs]. constructor.
  - cbn [fst]. rewrite Forall_forall in Hall. apply Hall.
    unfold map_keys. rewrite map_app. apply in_or_app. right. now left.
  - apply IH. exact Hs.
Qed.

(** No key of a sorted map is above the last one. *)
Lemma map_rbegin_max (m : list (R * V)) (e : R * V) :
  map_sorted m -> map_rbegin m = Some e ->
  forall k, In k (map_keys m) -> sltb (fst e) k = false.
Proof.
  induction m as [|[k0 f0] m IH]; intros Hs Hl k Hin; [discriminate|].
  cbn [map_sorted] in Hs. destruct Hs as [Hall Hs].
  destruct m as [|b m'].
  - injection Hl as He. subst e. destruct Hin as [<- | []]. apply sltb_irrefl.
  - assert (Hlast : In (fst e) (map_keys (b :: m'))).
    { unfold map_keys. apply in_map. apply map_rbegin_In. exact Hl. }
    destruct Hin as [<- | Hin].
    + apply sltb_asym. rewrite Forall_forall in Hall. now apply Hall.
    + exact (IH Hs Hl k Hin).
Qed.

(** The entry found has the least key among those not below [t]. *)
Lemma map_lower_bound_least (m : list (R * V)) (t k : R) (f : V) :
  map_sorted m -> map_lower_bound t m = Some (k, f) ->
  forall k', In k' (map_keys m) -> sltb k' t = false -> sltb k' k = false.
Proof.
  induction m as [|[k0 f0] m IH]; intros Hs Hlb k' Hin Hk'; [discriminate|].
  cbn [map_sorted] in Hs. destruct Hs as [Hall Hs].
  cbn [map_lower_bound] in Hlb. cbn [map_keys map fst] in Hin.
  destruct (sltb k0 t) eqn:Hk0.
  - destruct Hin as [<- | Hin]; [congruence|]. exact (IH Hs Hlb k' Hin Hk').
  - injection Hlb as <- <-. destruct Hin as [<- | Hin].
    + apply sltb_irrefl.
    + apply sltb_asym. rewrite Forall_forall in Hall. now apply Hall.
Qed.

End MapProofs.

Section MapInsertProofs.
Context {R V : Type} `{ScalarOps R}.

Lemma map_insert_keys (k : R) (v : V) (m : list (R * V)) (k' : R) :
  In k' (map_keys (map_insert k v m)) -> k' = k \/ In k' (map_keys m).
Proof.
  induction m as [|[k0 v0] m IH]; cbn [map_insert].
  - intros [<- | []]. now left.
  - destruct (sltb k k0).
    + intros [<- | Hin]; [now left | now right].
    + destruct (sltb k0 k); [|now right].
      intros [<- | Hin]; [right; now left|].
      destruct (IH Hin) as [-> | Hin']; [now left | right; now right].
Qed.

Lemma map_insert_keeps (k : R) (v : V) (m : list (R * V)) (e : R * V) :
  In e m -> In e (map_insert k v m).
Proof.
  induction m as [|[k0 v0] m IH]; cbn [map_insert]; [intros []|].
  intro Hin. destruct (sltb k k0); [now right|].
  destruct (sltb k0 k); [|exact Hin].
  destruct Hin as [<- | Hin]; [now left | right; now apply IH].
Qed.

(** After [insert] some key equivalent to [k] is stored. *)
Lemma map_insert_covers (k : R) (v : V) (m : list (R * V)) :
  sltb k k = false ->
  exists k', In k' (map_keys (map_insert k v m))
             /\ sltb k k' = false /\ sltb k' k = false.
Proof.
  intro Hirr. induction m as [|[k0 v0] m IH]; cbn [map_insert].
  - exists k. repeat split; [now left | exact Hirr | exact Hirr].
  - destruct (sltb k k0) eqn:Hlt.
    + exists k. repeat split; [now left | exact Hirr | exact Hirr].
    + destruct (sltb k0 k) eqn:Hgt.
      * destruct IH as (k' & Hin & H1 & H2). exists k'.
        repeat split; [now right | exact H1 | exact H2].
      * exists k0. repeat split; [now left | exact Hlt | exact Hgt].
Qed.

(** With no equivalent key stored, the new entry goes in. *)
Lemma map_insert_fresh (k : R) (v : V) (m : list (R * V)) :
  (forall k', In k' (map_keys m) -> sltb k k' = true \/ sltb k' k = true) ->
  In (k, v) (map_insert k v m).
Proof.
  induction m as [|[k0 v0] m IH]; intro Hfresh; cbn [map_insert]; [now left|].
  destruct (sltb k k0) eqn:Hlt; [now left|].
  destruct (sltb k0 k) eqn:Hgt.
  - right. apply IH. intros k' Hin. apply Hfresh. now right.
  - destruct (Hfresh k0) as [Hx | Hx]; [now left | congruence | congruence].
Qed.

Context {HO : ScalarOrderLaws R}.

Lemma map_insert_sorted (k : R) (v : V) (m : list (R * V)) :
  map_sorted m -> map_sorted (map_insert k v m).
Proof.
  induction m as [|[k0 v0] m IH]; intro Hs; cbn [map_insert].
  - cbn. split; [constructor | exact I].
  - pose proof Hs as Hs0. cbn [map_sorted] in Hs. destruct Hs as [Hall Hs].
    destruct (sltb k k0) eqn:Hlt.
    + cbn [map_sorted]. split; [|exact Hs0].
      cbn [map_keys map fst]. constructor; [exact Hlt|].
      rewrite Forall_forall in *. intros k' Hin.
      exact (sltb_trans _ _ _ Hlt (Hall k' Hin)).
    + destruct (sltb k0 k) eqn:Hgt; [|exact Hs0].
      cbn [map_sorted]. split; [|now apply IH].
      rewrite Forall_forall in *. intros k' Hin.
      destruct (map_insert_keys _ _ _ _ Hin) as [-> | Hin']; [exact Hgt | now apply Hall].
Qed.

(** With an equivalent key stored, [insert] changes nothing. *)
Lemma map_insert_present (k : R) (v : V) (m : list (R * V)) (k' : R) :
  map_sorted m -> In k' (map_keys m) -> sltb k k' = false -> sltb k' k = false ->
  map_insert k v m = m.
Proof.
  induction m as [|[k0 v0] m IH]; intros Hs Hin H1 H2; [destruct Hin|].
  cbn [map_sorted] in Hs. destruct Hs as [Hall Hs].
  cbn [map_keys map fst] in Hin. cbn [map_insert].
  rewrite Forall_forall in Hall.
  destruct (sltb k k0) eqn:Hlt.
  - destruct Hin as [<- | Hin]; [congruence|].
    pose proof (sltb_trans _ _ _ Hlt (Hall k' Hin)). congruence.
  - destruct (sltb k0 k) eqn:Hgt; [|reflexivity].
    destruct Hin as [<- | Hin]; [congruence|].
    f_equal. exact (IH Hs Hin H1 H2).
Qed.

End MapInsertProofs.

(** ** PiecewiseFunc: the argument check and the dispatch *)

Section PiecewiseProofs.
Context {R T : Type} `{ScalarOps R}.

Lemma domainUpperLimit_rbegin (pf : PiecewiseFunc R T) (e : R * Func R T) :
  map_rbegin (funcs_ pf) = Some e -> PiecewiseFunc_domainUpperLimit pf = fst e.
Proof.
  intro Hl. unfold PiecewiseFunc_domainUpperLimit. rewrite Hl.
  destruct (funcs_ pf); [discriminate | reflexivity].
Qed.

Lemma checkArg_outside (pf : PiecewiseFunc R T) (t : R) (e : R * Func R T) :
  map_rbegin (funcs_ pf) = Some e ->
  sltb t (tLowerLimit_ pf) = true \/ sltb (fst e) t = true ->
  checkArg pf t = Throw (OutOfDomain (tLowerLimit_ pf) t (fst e)).
Proof.
  intros Hl Hout. unfold checkArg, last_key. rewrite Hl. cbn [deref bind].
  destruct (sltb t (tLowerLimit_ pf)); [reflexivity|].
  destruct Hout as [Hx | Hx]; [discriminate | now rewrite Hx].
Qed.

Lemma checkArg_inside (pf : PiecewiseFunc R T) (t : R) (e : R * Func R T) :
  map_rbegin (funcs_ pf) = Some e ->
  sltb t (tLowerLimit_ pf) = false -> sltb (fst e) t = false ->
  checkArg pf t = Ret tt.
Proof.
  intros Hl Hlo Hup. unfold checkArg, last_key. rewrite Hl, Hlo. cbn [deref bind].
  now rewrite Hup.
Qed.

Lemma checkArg_empty (pf : PiecewiseFunc R T) (t : R) :
  funcs_ pf = [] -> checkArg pf t = Undefined.
Proof.
  intro Hempty. unfold checkArg, last_key. rewrite Hempty. cbn [map_rbegin deref bind].
  now destruct (sltb t (tLowerLimit_ pf)).
Qed.

(** Once the check has passed and [lower_bound] has found an entry, both
    calls are that entry's. *)
Lemma dispatch_to (pf : PiecewiseFunc R T) (t : R) (k : R) (f : Func R T) :
  checkArg pf t = Ret tt -> map_lower_bound t (funcs_ pf) = Some (k, f) ->
  PiecewiseFunc_call pf t = call f t
  /\ forall order, PiecewiseFunc_derivative pf t order = derivative f t order.
Proof.
  intros Hc Hlb. unfold PiecewiseFunc_call, PiecewiseFunc_derivative.
  rewrite Hc, Hlb. split; [reflexivity | intro; reflexivity].
Qed.

End PiecewiseProofs.

(** C3: on a PiecewiseFunc with at least one segment, [operator()(t)] and
    [derivative(t, order)] throw the out-of-domain error, carrying the lower
    limit and the last segment's upper bound, when t is below the lower limit
    or above the last upper bound; for t within the two bounds (both
    included) the check passes and the result is the one of a stored segment,
    so no error is raised when the segments raise none. *)
Theorem PiecewiseFunc_out_of_domain :
  forall (R T : Type) (SO : ScalarOps R) (pf : PiecewiseFunc R T) (t : R) (order : Z),
    funcs_ pf <> [] ->
    (sltb t (PiecewiseFunc_domainLowerLimit pf) = true
     \/ sltb (PiecewiseFunc_domainUpperLimit pf) t = true ->
     PiecewiseFunc_call pf t
     = Throw (OutOfDomain (PiecewiseFunc_domainLowerLimit pf) t
                          (PiecewiseFunc_domainUpperLimit pf))
     /\ PiecewiseFunc_derivative pf t order
        = Throw (OutOfDomain (PiecewiseFunc_domainLowerLimit pf) t
                             (PiecewiseFunc_domainUpperLimit pf)))
    /\ (sltb t (PiecewiseFunc_domainLowerLimit pf) = false ->
        sltb (PiecewiseFunc_domainUpperLimit pf) t = false ->
        checkArg pf t = Ret tt
        /\ (exists k f, In (k, f) (funcs_ pf)
                        /\ PiecewiseFunc_call pf t = call f t
                        /\ PiecewiseFunc_derivative pf t order = derivative f t order)
        /\ ((forall k f, In (k, f) (funcs_ pf) ->
                         (exists v, call f t = Ret v) /\ (exists v, derivative f t order = Ret v)) ->
            (exists v, PiecewiseFunc_call pf t = Ret v)
            /\ (exists v, PiecewiseFunc_derivative pf t order = Ret v))).
Proof.
  intros R T SO pf t order Hne.
  destruct (map_rbegin_nonempty Hne) as [e He].
  unfold PiecewiseFunc_domainLowerLimit. rewrite (domainUpperLimit_rbegin pf He).
  split.
  - intro Hout. unfold PiecewiseFunc_call, PiecewiseFunc_derivative.
    rewrite (checkArg_outside pf t He Hout). split; reflexivity.
  - intros Hlo Hup.
    pose proof (checkArg_inside pf t He Hlo Hup) as Hc.
    destruct (map_lower_bound_found _ t He Hup) as (k & f & Hlb & Hin & _).
    destruct (dispatch_to pf t Hc Hlb) as [Hcall Hder].
    split; [exact Hc | split].
    + exists k, f. repeat split; [exact Hin | exact Hcall | apply Hder].
    + intro Htotal. destruct (Htotal k f Hin) as [Hv Hd].
      rewrite Hcall, Hder. split; assumption.
Qed.

Lemma PiecewiseFunc_out_of_domain_witness :
  PiecewiseFunc_call scenario_piecewise (5 # 2)
  = Throw (OutOfDomain 0%Q (5 # 2) 2%Q)
  /\ PiecewiseFunc_derivative scenario_piecewise (5 # 2) 1
     = Throw (OutOfDomain 0%Q (5 # 2) 2%Q).
Proof.
  refine (proj1 (@PiecewiseFunc_out_of_domain Q Q Q_ScalarOps scenario_piecewise (5 # 2) 1 _) _).
  - discriminate.
  - right. reflexivity.
Defined.

(** C10: on a PiecewiseFunc without segments the argument check reads the
    last key of the empty map, so [operator()(t)] and [derivative(t, order)]
    have no defined result for any t, while [domainUpperLimit] answers. *)
Theorem PiecewiseFunc_empty_undefined :
  forall (R T : Type) (SO : ScalarOps R) (pf : PiecewiseFunc R T) (t : R) (order : Z),
    funcs_ pf = [] ->
    checkArg pf t = Undefined
    /\ PiecewiseFunc_call pf t = Undefined
    /\ PiecewiseFunc_derivative pf t order = Undefined
    /\ PiecewiseFunc_domainUpperLimit pf = double_max.
Proof.
  intros R T SO pf t order Hempty.
  pose proof (checkArg_empty pf t Hempty) as Hc.
  unfold PiecewiseFunc_call, PiecewiseFunc_derivative, PiecewiseFunc_domainUpperLimit.
  rewrite Hc, Hempty. repeat split.
Qed.

Lemma PiecewiseFunc_empty_undefined_witness :
  checkArg (PiecewiseFunc_new (R := Q) (T := Q)) 0%Q = Undefined
  /\ PiecewiseFunc_call (PiecewiseFunc_new (R := Q) (T := Q)) 0%Q = Undefined
  /\ PiecewiseFunc_derivative (PiecewiseFunc_new (R := Q) (T := Q)) 0%Q 1 = Undefined
  /\ PiecewiseFunc_domainUpperLimit (PiecewiseFunc_new (R := Q) (T := Q)) = Q_double_max.
Proof.
  exact (@PiecewiseFunc_empty_undefined Q Q Q_ScalarOps PiecewiseFunc_new 0%Q 1 eq_refl).
Defined.

Section DispatchProofs.
Context {R T : Type} `{ScalarOps R} {HO : ScalarOrderLaws R}.

(** Within the domain, the entry found by [lower_bound] has the least key
    not below [t], and both calls are forwarded to it. *)
Lemma dispatch_least (pf : PiecewiseFunc R T) (t : R) :
  map_sorted (funcs_ pf) -> funcs_ pf <> [] ->
  sltb t (PiecewiseFunc_domainLowerLimit pf) = false ->
  sltb (PiecewiseFunc_domainUpperLimit pf) t = false ->
  exists k f,
    map_lower_bound t (funcs_ pf) = Some (k, f)
    /\ In (k, f) (funcs_ pf)
    /\ sltb k t = false
    /\ (forall k', In k' (map_keys (funcs_ pf)) -> sltb k' t = false -> sltb k' k = false)
    /\ PiecewiseFunc_call pf t = call f t
    /\ (forall order, PiecewiseFunc_derivative pf t order = derivative f t order).
Proof.
  intros Hs Hne Hlo Hup.
  destruct (map_rbegin_nonempty Hne) as [e He].
  rewrite (domainUpperLimit_rbegin pf He) in Hup.
  pose proof (checkArg_inside pf t He Hlo Hup) as Hc.
  destruct (map_lower_bound_found _ t He Hup) as (k & f & Hlb & Hin & Hk).
  destruct (dispatch_to pf t Hc Hlb) as [Hcall Hder].
  exists k, f. repeat split; try assumption.
  exact (map_lower_bound_least _ _ Hs Hlb).
Qed.

(** The segment after a run of keys below [t], itself not below [t], is
    the owner of [t]. *)
Lemma dispatch_owner (pf : PiecewiseFunc R T) (t : R) l1 (k : R) (f : Func R T) l2 :
  map_sorted (funcs_ pf) -> funcs_ pf = l1 ++ (k, f) :: l2 ->
  sltb t (PiecewiseFunc_domainLowerLimit pf) = false ->
  Forall (fun e => sltb (fst e) t = true) l1 -> sltb k t = false ->
  PiecewiseFunc_call pf t = call f t
  /\ (forall order, PiecewiseFunc_derivative pf t order = derivative f t order).
Proof.
  intros Hs Hsplit Hlo Hl1 Hk.
  assert (Hne : funcs_ pf <> []) by (rewrite Hsplit; now destruct l1).
  destruct (map_rbegin_nonempty Hne) as [e He].
  assert (Hup : sltb (fst e) t = false).
  { destruct (sltb (fst e) t) eqn:Hx; [|reflexivity].
    assert (Hkin : In k (map_keys (funcs_ pf))).
    { rewrite Hsplit. unfold map_keys. rewrite map_app. apply in_or_app. right. now left. }
    pose proof (map_rbegin_max _ Hs He k Hkin) as Hmax.
    pose proof (sltb_lt_le _ _ _ Hx Hk). congruence. }
  apply (dispatch_to (k := k) pf t (checkArg_inside pf t He Hlo Hup)).
  rewrite Hsplit. now apply map_lower_bound_split.
Qed.

(** At a stored upper bound the segment stored under it is selected. *)
Lemma dispatch_boundary (pf : PiecewiseFunc R T) (k : R) (f : Func R T) :
  map_sorted (funcs_ pf) -> In (k, f) (funcs_ pf) ->
  sltb k (PiecewiseFunc_domainLowerLimit pf) = false ->
  PiecewiseFunc_call pf k = call f k
  /\ (forall order, PiecewiseFunc_derivative pf k order = derivative f k order).
Proof.
  intros Hs Hin Hlo. destruct (in_split _ _ Hin) as (l1 & l2 & Hsplit).
  apply dispatch_owner with (l1 := l1) (k := k) (l2 := l2); try assumption.
  - rewrite Hsplit in Hs. exact (map_sorted_app _ _ _ _ Hs).
  - apply sltb_irrefl.
Qed.

End DispatchProofs.

(** C4: for every in-domain t, [operator()(t)] and [derivative(t, order)]
    are those of the segment whose upper-bound key is the smallest key not
    below t; at a segment's upper bound that segment (not the next one) is
    selected, and at a point between the previous key and a segment's key
    that segment answers.  On the scenario: 1/2 and 1 give 5, 3/2 gives 9. *)
Theorem PiecewiseFunc_dispatch :
  (forall (R T : Type) (SO : ScalarOps R),
      ScalarOrderLaws R ->
      forall (pf : PiecewiseFunc R T) (t : R) (order : Z),
        map_sorted (funcs_ pf) -> funcs_ pf <> [] ->
        sltb t (PiecewiseFunc_domainLowerLimit pf) = false ->
        sltb (PiecewiseFunc_domainUpperLimit pf) t = false ->
        exists k f,
          In (k, f) (funcs_ pf)
          /\ sltb k t = false
          /\ (forall k', In k' (map_keys (funcs_ pf)) -> sltb k' t = false -> sltb k' k = false)
          /\ PiecewiseFunc_call pf t = call f t
          /\ PiecewiseFunc_derivative pf t order = derivative f t order)
  /\ (forall (R T : Type) (SO : ScalarOps R),
         ScalarOrderLaws R ->
         forall (pf : PiecewiseFunc R T) (k : R) (f : Func R T) (order : Z),
           map_sorted (funcs_ pf) -> In (k, f) (funcs_ pf) ->
           sltb k (PiecewiseFunc_domainLowerLimit pf) = false ->
           PiecewiseFunc_call pf k = call f k
           /\ PiecewiseFunc_derivative pf k order = derivative f k order)
  /\ (forall (R T : Type) (SO : ScalarOps R),
         ScalarOrderLaws R ->
         forall (pf : PiecewiseFunc R T) (t : R) l1 (k : R) (f : Func R T) l2 (order : Z),
           map_sorted (funcs_ pf) -> funcs_ pf = l1 ++ (k, f) :: l2 ->
           sltb t (PiecewiseFunc_domainLowerLimit pf) = false ->
           Forall (fun e => sltb (fst e) t = true) l1 -> sltb k t = false ->
           PiecewiseFunc_call pf t = call f t
           /\ PiecewiseFunc_derivative pf t order = derivative f t order)
  /\ (PiecewiseFunc_call scenario_piecewise (1 # 2) = Ret 5%Q
      /\ PiecewiseFunc_call scenario_piecewise 1%Q = Ret 5%Q
      /\ PiecewiseFunc_call scenario_piecewise (3 # 2) = Ret 9%Q).
Proof.
  split; [|split; [|split]].
  - intros R T SO HO pf t order Hs Hne Hlo Hup.
    destruct (@dispatch_least R T SO HO pf t Hs Hne Hlo Hup) as (k & f & _ & Hin & Hk & Hleast & Hc & Hd).
    exists k, f. repeat split; try assumption. apply Hd.
  - intros R T SO HO pf k f order Hs Hin Hlo.
    destruct (@dispatch_boundary R T SO HO pf k f Hs Hin Hlo) as [Hc Hd]. split; [exact Hc | apply Hd].
  - intros R T SO HO pf t l1 k f l2 order Hs Hsplit Hlo Hl1 Hk.
    destruct (@dispatch_owner R T SO HO pf t l1 k f l2 Hs Hsplit Hlo Hl1 Hk) as [Hc Hd].
    split; [exact Hc | apply Hd].
  - repeat split.
Qed.

Lemma PiecewiseFunc_dispatch_witness :
  PiecewiseFunc_call scenario_piecewise 1%Q = call (Polynomial_Func (Constant 5%Q)) 1%Q
  /\ PiecewiseFunc_derivative scenario_piecewise 1%Q 1
     = derivative (Polynomial_Func (Constant 5%Q)) 1%Q 1.
Proof.
  refine (proj1 (proj2 PiecewiseFunc_dispatch) Q Q Q_ScalarOps Q_ScalarOrderLaws
                scenario_piecewise 1%Q (Polynomial_Func (Constant 5%Q)) 1 _ _ _).
  - cbn. repeat constructor.
  - left. reflexivity.
  - reflexivity.
Defined.

(** ** PiecewiseFunc: the domain limits and appendFunc *)

Section AppendProofs.
Context {R T : Type} `{ScalarOps R} {HO : ScalarOrderLaws R}.

(** Keys neither of which is below the other are equivalent, transitively. *)
Lemma sltb_equiv_trans (a b c : R) :
  sltb a b = false -> sltb b a = false -> sltb b c = false -> sltb c b = false ->
  sltb a c = false /\ sltb c a = false.
Proof.
  intros Hab Hba Hbc Hcb. split.
  - destruct (sltb a c) eqn:Hx; [|reflexivity].
    destruct (sltb_cotrans a b c Hx); congruence.
  - destruct (sltb c a) eqn:Hx; [|reflexivity].
    destruct (sltb_cotrans c b a Hx); congruence.
Qed.

(** A run of appends keeps the map sorted, stores appended keys only, and
    stores a key equivalent to every appended one. *)
Lemma appendFuncs_keys (segs : list (R * Func R T)) :
  forall pf : PiecewiseFunc R T,
    map_sorted (funcs_ pf) ->
    exists pf',
      appendFuncs pf segs = Ret pf'
      /\ tLowerLimit_ pf' = tLowerLimit_ pf
      /\ map_sorted (funcs_ pf')
      /\ (forall k, In k (map_keys (funcs_ pf')) ->
                    In k (map_keys (funcs_ pf)) \/ In k (map fst segs))
      /\ (forall k, In k (map_keys (funcs_ pf)) \/ In k (map fst segs) ->
                    exists k', In k' (map_keys (funcs_ pf'))
                               /\ sltb k k' = false /\ sltb k' k = false).
Proof.
  induction segs as [|[t f] segs IH]; intros pf Hs.
  - exists pf. cbn [appendFuncs map]. repeat split; try assumption.
    + intros k Hk. now left.
    + intros k [Hk | []]. exists k. repeat split; [exact Hk | | ]; apply sltb_irrefl.
  - cbn [appendFuncs appendFunc bind].
    set (pf1 := {| funcs_ := map_insert t f (funcs_ pf); tLowerLimit_ := tLowerLimit_ pf |}).
    assert (Hs1 : map_sorted (funcs_ pf1)) by (apply map_insert_sorted; exact Hs).
    destruct (IH pf1 Hs1) as (pf' & Hrun & Hlo & Hs' & Hsub & Hcov).
    exists pf'. repeat split; try assumption.
    + intros k Hk. cbn [map fst]. destruct (Hsub k Hk) as [Hk1 | Hk1].
      * destruct (map_insert_keys _ _ _ _ Hk1) as [-> | Hk0];
          [right; now left | now left].
      * right. now right.
    + intros k Hk. cbn [map fst] in Hk. destruct Hk as [Hk | [<- | Hk]].
      * apply Hcov. left. unfold map_keys in *.
        apply in_map_iff in Hk. destruct Hk as (e & <- & He).
        apply in_map. now apply map_insert_keeps.
      * destruct (map_insert_covers t f (funcs_ pf) (sltb_irrefl t))
          as (k1 & Hin1 & Ht1 & H1t).
        destruct (Hcov k1 (or_introl Hin1)) as (k' & Hin' & H1' & H'1).
        exists k'. split; [exact Hin'|].
        exact (sltb_equiv_trans _ _ _ Ht1 H1t H1' H'1).
      * apply Hcov. now right.
Qed.

(** On a sorted non-empty map [domainUpperLimit] is a stored key and no
    stored key is above it. *)
Lemma domainUpperLimit_largest (pf : PiecewiseFunc R T) :
  map_sorted (funcs_ pf) -> funcs_ pf <> [] ->
  In (PiecewiseFunc_domainUpperLimit pf) (map_keys (funcs_ pf))
  /\ forall k, In k (map_keys (funcs_ pf)) ->
               sltb (PiecewiseFunc_domainUpperLimit pf) k = false.
Proof.
  intros Hs Hne. destruct (map_rbegin_nonempty Hne) as [e He].
  rewrite (domainUpperLimit_rbegin pf He). split.
  - unfold map_keys. apply in_map. now apply map_rbegin_In.
  - exact (map_rbegin_max _ Hs He).
Qed.

Lemma appendFuncs_upper (segs : list (R * Func R T)) (pf0 : PiecewiseFunc R T) :
  segs <> [] -> funcs_ pf0 = [] ->
  exists pf,
    appendFuncs pf0 segs = Ret pf
    /\ PiecewiseFunc_domainLowerLimit pf = PiecewiseFunc_domainLowerLimit pf0
    /\ In (PiecewiseFunc_domainUpperLimit pf) (map fst segs)
    /\ forall k, In k (map fst segs) ->
                 sltb (PiecewiseFunc_domainUpperLimit pf) k = false.
Proof.
  intros Hne Hempty.
  assert (Hs0 : map_sorted (funcs_ pf0)) by (rewrite Hempty; exact I).
  destruct (appendFuncs_keys segs pf0 Hs0) as (pf & Hrun & Hlo & Hs & Hsub & Hcov).
  assert (Hne' : funcs_ pf <> []).
  { destruct segs as [|[t f] segs]; [contradiction|].
    destruct (Hcov t (or_intror (or_introl eq_refl))) as (k' & Hin & _).
    intro Hnil. rewrite Hnil in Hin. exact Hin. }
  destruct (domainUpperLimit_largest pf Hs Hne') as [Hin Hmax].
  exists pf. repeat split; try assumption.
  - destruct (Hsub _ Hin) as [Hx | Hx]; [|exact Hx].
    rewrite Hempty in Hx. destruct Hx.
  - intros k Hk. destruct (Hcov k (or_intror Hk)) as (k' & Hin' & Hkk' & Hk'k).
    destruct (sltb (PiecewiseFunc_domainUpperLimit pf) k) eqn:Hx; [|reflexivity].
    pose proof (Hmax k' Hin') as Hm.
    destruct (sltb_cotrans _ k' _ Hx); congruence.
Qed.

End AppendProofs.

(** C9: [domainLowerLimit] returns the stored lower limit, which is the
    lowest double after construction and after [clearFuncs];
    [domainUpperLimit] returns the maximal double when no segment is stored
    and the largest appended key once segments have been appended. *)
Theorem PiecewiseFunc_domain_limits :
  forall (R T : Type) (SO : ScalarOps R),
    ScalarOrderLaws R ->
    (forall pf : PiecewiseFunc R T, PiecewiseFunc_domainLowerLimit pf = tLowerLimit_ pf)
    /\ PiecewiseFunc_domainLowerLimit (PiecewiseFunc_new (R := R) (T := T)) = double_lowest
    /\ (forall pf : PiecewiseFunc R T,
           PiecewiseFunc_domainLowerLimit (clearFuncs pf) = double_lowest
           /\ funcs_ (clearFuncs pf) = [])
    /\ (forall (pf : PiecewiseFunc R T) (t : R),
           PiecewiseFunc_domainLowerLimit (setDomainLowerLimit pf t) = t)
    /\ (forall pf : PiecewiseFunc R T,
           funcs_ pf = [] -> PiecewiseFunc_domainUpperLimit pf = double_max)
    /\ (forall (segs : list (R * Func R T)) (pf0 : PiecewiseFunc R T),
           segs <> [] -> funcs_ pf0 = [] ->
           exists pf,
             appendFuncs pf0 segs = Ret pf
             /\ PiecewiseFunc_domainLowerLimit pf = PiecewiseFunc_domainLowerLimit pf0
             /\ In (PiecewiseFunc_domainUpperLimit pf) (map fst segs)
             /\ forall k, In k (map fst segs) ->
                          sltb (PiecewiseFunc_domainUpperLimit pf) k = false)
    /\ (forall pf : PiecewiseFunc R T,
           map_sorted (funcs_ pf) -> funcs_ pf <> [] ->
           In (PiecewiseFunc_domainUpperLimit pf) (map_keys (funcs_ pf))
           /\ forall k, In k (map_keys (funcs_ pf)) ->
                        sltb (PiecewiseFunc_domainUpperLimit pf) k = false).
Proof.
  intros R T SO HO. repeat split.
  - intros pf Hempty. unfold PiecewiseFunc_domainUpperLimit. now rewrite Hempty.
  - intros segs pf0 Hne Hempty. now apply appendFuncs_upper.
  - now apply domainUpperLimit_largest.
  - now apply domainUpperLimit_largest.
Qed.

Lemma PiecewiseFunc_domain_limits_witness :
  exists pf : PiecewiseFunc Q Q,
    appendFuncs (setDomainLowerLimit PiecewiseFunc_new 0%Q) scenario_segments = Ret pf
    /\ PiecewiseFunc_domainLowerLimit pf
       = PiecewiseFunc_domainLowerLimit (setDomainLowerLimit (PiecewiseFunc_new (T := Q)) 0%Q)
    /\ In (PiecewiseFunc_domainUpperLimit pf) (map fst scenario_segments)
    /\ forall k, In k (map fst scenario_segments) ->
                 sltb (PiecewiseFunc_domainUpperLimit pf) k = false.
Proof.
  refine (proj1 (proj2 (proj2 (proj2 (proj2 (proj2
            (@PiecewiseFunc_domain_limits Q Q Q_ScalarOps Q_ScalarOrderLaws))))))
          scenario_segments (setDomainLowerLimit PiecewiseFunc_new 0%Q) _ _).
  - discriminate.
  - reflexivity.
Defined.

(** C7, as the code has it: [appendFunc] checks nothing and always returns.
    It leaves the lower limit alone and keeps every stored segment; when no
    stored key is equivalent to t the new segment is stored at its place in
    key order, also below existing keys, and when t is already a key the
    container is returned unchanged. *)
Theorem appendFunc_never_rejects :
  forall (R T : Type) (SO : ScalarOps R),
    ScalarOrderLaws R ->
    forall (pf : PiecewiseFunc R T) (t : R) (func : Func R T),
      map_sorted (funcs_ pf) ->
      exists pf',
        appendFunc pf t func = Ret pf'
        /\ tLowerLimit_ pf' = tLowerLimit_ pf
        /\ map_sorted (funcs_ pf')
        /\ (forall e, In e (funcs_ pf) -> In e (funcs_ pf'))
        /\ ((forall k, In k (map_keys (funcs_ pf)) -> sltb t k = true \/ sltb k t = true) ->
            In (t, func) (funcs_ pf'))
        /\ (forall k, In k (map_keys (funcs_ pf)) -> sltb t k = false -> sltb k t = false ->
                      pf' = pf).
Proof.
  intros R T SO HO pf t func Hs.
  exists {| funcs_ := map_insert t func (funcs_ pf); tLowerLimit_ := tLowerLimit_ pf |}.
  cbn [funcs_ tLowerLimit_]. repeat split.
  - now apply map_insert_sorted.
  - intros e He. now apply map_insert_keeps.
  - apply map_insert_fresh.
  - intros k Hin H1 H2. rewrite (map_insert_present t func (funcs_ pf) k Hs Hin H1 H2).
    now destruct pf.
Qed.

Lemma appendFunc_never_rejects_witness :
  exists pf',
    appendFunc scenario_piecewise (1 # 2) (Polynomial_Func (Constant 7%Q)) = Ret pf'
    /\ tLowerLimit_ pf' = tLowerLimit_ scenario_piecewise
    /\ map_sorted (funcs_ pf')
    /\ (forall e, In e (funcs_ scenario_piecewise) -> In e (funcs_ pf'))
    /\ ((forall k, In k (map_keys (funcs_ scenario_piecewise)) ->
                   sltb (1 # 2) k = true \/ sltb k (1 # 2) = true) ->
        In ((1 # 2), Polynomial_Func (Constant 7%Q)) (funcs_ pf'))
    /\ (forall k, In k (map_keys (funcs_ scenario_piecewise)) ->
                  sltb (1 # 2) k = false -> sltb k (1 # 2) = false ->
                  pf' = scenario_piecewise).
Proof.
  apply (@appendFunc_never_rejects Q Q Q_ScalarOps Q_ScalarOrderLaws).
  cbn. repeat constructor.
Defined.

(** C7 as stated fails: on the scenario (keys 1 and 2), appending under the
    key 1/2, below both, returns with the segment stored in front, and
    appending under the existing key 1 returns with the container unchanged
    and the new function dropped. *)
Lemma appendFunc_accepts_unordered_key :
  (exists pf',
      appendFunc scenario_piecewise (1 # 2) (Polynomial_Func (Constant 7%Q)) = Ret pf'
      /\ map_keys (funcs_ pf') = [1 # 2; 1%Q; 2%Q]
      /\ PiecewiseFunc_call pf' (1 # 4) = Ret 7%Q)
  /\ appendFunc scenario_piecewise 1%Q (Polynomial_Func (Constant 7%Q))
     = Ret scenario_piecewise.
Proof.
  split.
  - eexists. split; [reflexivity|]. split; reflexivity.
  - reflexivity.
Qed.

(** ** CentroidalManagerDdpZmp: reset and the warm start *)

Section ManagerProofs.
Context {R : Type} `{ScalarOps R}.
Variable E : Collaborators R.

Lemma runMpc_reuse (m : CentroidalManagerDdpZmp R) (ddp : DdpZmp R) (now : R) :
  ddp_ m = Some ddp -> Z.of_nat (length (u_list ddp)) = horizon_steps ddp ->
  runMpc E m now = solve_with E m ddp now (u_list ddp).
Proof.
  intros Hddp Hlen. unfold runMpc, warm_start, size_eq_int. rewrite Hddp.
  cbn [deref bind]. apply Z.eqb_eq in Hlen. rewrite Hlen. reflexivity.
Qed.

Lemma runMpc_nominal (m : CentroidalManagerDdpZmp R) (ddp : DdpZmp R) (now : R) :
  ddp_ m = Some ddp -> Z.of_nat (length (u_list ddp)) <> horizon_steps ddp ->
  0 <= horizon_steps ddp ->
  runMpc E m now
  = solve_with E m ddp now (repeat (nominal_input E m) (Z.to_nat (horizon_steps ddp))).
Proof.
  intros Hddp Hlen Hpos. unfold runMpc, warm_start, size_eq_int, vector_assign.
  rewrite Hddp. cbn [deref bind]. apply Z.eqb_neq in Hlen. rewrite Hlen.
  destruct (horizon_steps ddp <? 0) eqn:Hneg; [apply Z.ltb_lt in Hneg; lia|].
  reflexivity.
Qed.

(** With no previous sequence both branches give the nominal one. *)
Lemma runMpc_first (m : CentroidalManagerDdpZmp R) (ddp : DdpZmp R) (now : R) :
  ddp_ m = Some ddp -> u_list ddp = [] -> 0 <= horizon_steps ddp ->
  runMpc E m now
  = solve_with E m ddp now (repeat (nominal_input E m) (Z.to_nat (horizon_steps ddp))).
Proof.
  intros Hddp Hnil Hpos.
  destruct (Z.eq_dec (Z.of_nat (length (u_list ddp))) (horizon_steps ddp)) as [Heq | Hne].
  - rewrite (runMpc_reuse m now Hddp Heq). rewrite Hnil in *.
    cbn [length Z.of_nat] in Heq. rewrite <- Heq. reflexivity.
  - now apply runMpc_nominal.
Qed.

Lemma reset_succeeds_iff (m m' : CentroidalManagerDdpZmp R) :
  reset E m = Ret m' <->
  exists m1 steps d,
    CentroidalManager_reset E m = Ret m1
    /\ div_to_int E (horizonDuration (config_ m1)) (horizonDt (config_ m1)) = Ret steps
    /\ DdpZmp_new E (robotMass_ m1) (horizonDt (config_ m1)) steps = Ret d
    /\ m' = set_ddp m1 (set_max_iter d (ddpMaxIter (config_ m1))).
Proof.
  unfold reset. split.
  - destruct (CentroidalManager_reset E m) as [m1| |]; cbn [bind]; try discriminate.
    destruct (div_to_int E _ _) as [steps| |] eqn:Hsteps; cbn [bind]; try discriminate.
    destruct (DdpZmp_new E _ _ steps) as [d| |] eqn:Hd; cbn [bind]; try discriminate.
    intro Hret. injection Hret as <-. exists m1, steps, d.
    split; [reflexivity | split; [exact Hsteps | split; [exact Hd | reflexivity]]].
  - intros (m1 & steps & d & H1 & H2 & H3 & ->).
    rewrite H1. cbn [bind]. rewrite H2. cbn [bind]. rewrite H3. reflexivity.
Qed.

End ManagerProofs.

(** C2: on a [runMpc] tick the initial guess handed to the solver is the
    previous input sequence when its length equals the horizon step count;
    otherwise, and on the first solve after [reset()] where no previous
    sequence exists, it has one entry per horizon step, each with the CoM's x
    and y as ZMP and mass times g as vertical force. *)
Theorem runMpc_warm_start :
  forall (R : Type) (SO : ScalarOps R) (E : Collaborators R)
         (m : CentroidalManagerDdpZmp R) (ddp : DdpZmp R) (now : R),
    ddp_ m = Some ddp ->
    (Z.of_nat (length (u_list ddp)) = horizon_steps ddp ->
     runMpc E m now = solve_with E m ddp now (u_list ddp))
    /\ (0 <= horizon_steps ddp ->
        Z.of_nat (length (u_list ddp)) <> horizon_steps ddp \/ u_list ddp = [] ->
        exists u,
          runMpc E m now = solve_with E m ddp now u
          /\ length u = Z.to_nat (horizon_steps ddp)
          /\ Forall (fun v => vx v = vx (mpcCom_ m)
                              /\ vy v = vy (mpcCom_ m)
                              /\ vz v = smul (robotMass_ m) (constants_g E)) u).
Proof.
  intros R SO E m ddp now Hddp. split.
  - intro Hlen. now apply runMpc_reuse.
  - intros Hpos Hcase.
    exists (repeat (nominal_input E m) (Z.to_nat (horizon_steps ddp))).
    split; [|split].
    + destruct Hcase as [Hne | Hnil];
        [now apply runMpc_nominal | now apply runMpc_first].
    + apply repeat_length.
    + apply Forall_forall. intros v Hv. apply repeat_spec in Hv. subst v.
      repeat split.
Qed.

Lemma runMpc_warm_start_witness :
  exists u,
    runMpc Q_collaborators (set_ddp (scenario_manager (1 # 10) (1 # 50)) scenario_ddp) 0%Q
    = solve_with Q_collaborators (set_ddp (scenario_manager (1 # 10) (1 # 50)) scenario_ddp)
                 scenario_ddp 0%Q u
    /\ length u = 5%nat
    /\ Forall (fun v => vx v = (1 # 10)%Q /\ vy v = 0%Q
                        /\ vz v = Qmult 40%Q (980665 # 100000)%Q) u.
Proof.
  refine (proj2 (@runMpc_warm_start Q Q_ScalarOps Q_collaborators
                   (set_ddp (scenario_manager (1 # 10) (1 # 50)) scenario_ddp)
                   scenario_ddp 0%Q eq_refl) _ _).
  - discriminate.
  - right. reflexivity.
Defined.

(** C8, as the code has it: [reset()] does not look at the horizon length.
    It succeeds exactly when the base-class reset, the conversion of
    horizonDuration / horizonDt to int and the solver constructor succeed,
    and then holds the solver constructed with that count, whatever its
    sign, with [max_iter] set to [ddpMaxIter]. *)
Theorem reset_passes_horizon_unchecked :
  forall (R : Type) (E : Collaborators R) (m m' : CentroidalManagerDdpZmp R),
    reset E m = Ret m' <->
    exists m1 steps d,
      CentroidalManager_reset E m = Ret m1
      /\ div_to_int E (horizonDuration (config_ m1)) (horizonDt (config_ m1)) = Ret steps
      /\ DdpZmp_new E (robotMass_ m1) (horizonDt (config_ m1)) steps = Ret d
      /\ m' = set_ddp m1 (set_max_iter d (ddpMaxIter (config_ m1))).
Proof.
  intros R E m m'. apply reset_succeeds_iff.
Qed.

(** C8 as stated fails: with a solver constructor that stores its arguments,
    [reset()] with horizonDuration = 0 returns a manager whose solver has a
    horizon of 0 steps, and with horizonDuration = -1 one of -100 steps. *)
Lemma reset_accepts_empty_horizon :
  (exists m', reset Q_collaborators (scenario_manager 0 (1 # 100)) = Ret m'
              /\ option_map (@horizon_steps Q) (ddp_ m') = Some 0)
  /\ (exists m', reset Q_collaborators (scenario_manager (-1) (1 # 100)) = Ret m'
                 /\ option_map (@horizon_steps Q) (ddp_ m') = Some (-100)).
Proof.
  split; eexists; split; reflexivity.
Qed.

(** The rest of [runMpc]'s cases: a negative step count makes [assign]
    throw before the solver is called, and a null [ddp_] is dereferenced. *)
Lemma runMpc_negative_horizon (R : Type) (SO : ScalarOps R) (E : Collaborators R)
      (m : CentroidalManagerDdpZmp R) (ddp : DdpZmp R) (now : R) :
  ddp_ m = Some ddp -> horizon_steps ddp < 0 -> runMpc E m now = Throw LengthError.
Proof.
  intros Hddp Hneg. unfold runMpc, warm_start, size_eq_int, vector_assign.
  rewrite Hddp. cbn [deref bind].
  destruct (Z.of_nat (length (u_list ddp)) =? horizon_steps ddp) eqn:Heq;
    [apply Z.eqb_eq in Heq; lia|].
  apply Z.ltb_lt in Hneg. now rewrite Hneg.
Qed.

Lemma runMpc_before_reset (R : Type) (SO : ScalarOps R) (E : Collaborators R)
      (m : CentroidalManagerDdpZmp R) (now : R) :
  ddp_ m = None -> runMpc E m now = Undefined.
Proof.
  intro Hnull. unfold runMpc. now rewrite Hnull.
Qed.

(** ** The scenarios, run *)

Example scenario_piecewise_built :
  appendFuncs (setDomainLowerLimit PiecewiseFunc_new 0%Q) scenario_segments
  = Ret scenario_piecewise.
Proof. reflexivity. Qed.

Example scenario_derivative_order_0 :
  Polynomial_derivative scenario_polynomial 2%Q 0 = Polynomial_call scenario_polynomial 2%Q.
Proof. reflexivity. Qed.

Example scenario_negative_order :
  Polynomial_derivative scenario_polynomial 2%Q (-1) = Undefined.
Proof. reflexivity. Qed.

Example scenario_reset :
  reset Q_collaborators (scenario_manager (1 # 10) (1 # 50))
  = Ret (set_ddp (scenario_manager (1 # 10) (1 # 50)) scenario_ddp).
Proof. reflexivity. Qed.

Example scenario_first_tick :
  exists m',
    runMpc Q_collaborators (set_ddp (scenario_manager (1 # 10) (1 # 50)) scenario_ddp) 0%Q
    = Ret m'
    /\ plannedZmp_ m' = {| vx := (1 # 10)%Q; vy := 0%Q; vz := 0%Q |}
    /\ plannedForceZ_ m' = Qmult 40%Q (980665 # 100000)%Q
    /\ option_map (fun d => length (u_list d)) (ddp_ m') = Some 5%nat.
Proof. eexists. repeat split. Qed.

Example scenario_line_values :
  Polynomial_call scenario_line 3%Q = Ret {| vx := 2%Q; vy := 4%Q; vz := 1%Q |}
  /\ Polynomial_derivative scenario_line 3%Q 1 = Ret {| vx := 1%Q; vy := 2%Q; vz := 0%Q |}
  /\ Polynomial_derivative scenario_line 3%Q 2 = Ret Q3_zero
  /\ Polynomial_derivative scenario_polynomial 2%Q 3 = Ret 0%Q.
Proof. repeat split. Qed.

(** * Further properties of the code *)

(** ** The container keeps its keys in order *)

Section BuiltProofs.
Context {R T : Type} `{ScalarOps R} {HO : ScalarOrderLaws R}.

Lemma built_map_sorted (pf : PiecewiseFunc R T) : built pf -> map_sorted (funcs_ pf).
Proof.
  induction 1 as [| pf _ _ | pf pf' t func _ IH Happ | pf t _ IH].
  - exact I.
  - exact I.
  - unfold appendFunc in Happ. injection Happ as <-. cbn [funcs_].
    now apply map_insert_sorted.
  - exact IH.
Qed.

(** Strictly increasing keys are pairwise distinct. *)
Lemma map_sorted_NoDup (m : list (R * Func R T)) : map_sorted m -> NoDup (map_keys m).
Proof.
  induction m as [|[k f] m IH]; intro Hs; [constructor|].
  cbn [map_sorted] in Hs. destruct Hs as [Hall Hs].
  cbn [map_keys map fst]. constructor; [|now apply IH].
  intro Hin. rewrite Forall_forall in Hall.
  pose proof (Hall k Hin) as Hkk. rewrite sltb_irrefl in Hkk. discriminate.
Qed.

(** An entry above every stored key goes to the end. *)
Lemma map_insert_above (k : R) (v : Func R T) (m : list (R * Func R T)) :
  Forall (fun e => sltb (fst e) k = true) m -> map_insert k v m = m ++ [(k, v)].
Proof.
  induction 1 as [|[k0 v0] m Hk0 _ IH]; [reflexivity|].
  cbn [fst] in Hk0. cbn [map_insert app].
  rewrite (sltb_asym _ _ Hk0), Hk0. now rewrite IH.
Qed.

Lemma map_lower_bound_app (t : R) (m l : list (R * Func R T)) (e : R * Func R T) :
  map_lower_bound t m = Some e -> map_lower_bound t (m ++ l) = Some e.
Proof.
  induction m as [|[k f] m IH]; [discriminate|].
  cbn [map_lower_bound app]. destruct (sltb k t); [exact IH | trivial].
Qed.

Lemma map_rbegin_snoc (m : list (R * Func R T)) (e : R * Func R T) :
  map_rbegin (m ++ [e]) = Some e.
Proof.
  induction m as [|a m IH]; [reflexivity|].
  cbn [app map_rbegin]. destruct (m ++ [e]) eqn:Hm; [|exact IH].
  destruct m; discriminate.
Qed.

End BuiltProofs.

(** X1: whatever the order of the calls, a container reached through the
    constructor, [clearFuncs], [appendFunc] and [setDomainLowerLimit] has its
    keys strictly increasing, so no key is stored twice. *)
Theorem built_keys_strictly_increasing :
  forall (R T : Type) (SO : ScalarOps R),
    ScalarOrderLaws R ->
    forall pf : PiecewiseFunc R T,
      built pf -> map_sorted (funcs_ pf) /\ NoDup (map_keys (funcs_ pf)).
Proof.
  intros R T SO HO pf Hb. pose proof (built_map_sorted Hb) as Hs.
  split; [exact Hs | now apply map_sorted_NoDup].
Qed.

Lemma built_keys_strictly_increasing_witness :
  map_sorted (funcs_ scenario_piecewise) /\ NoDup (map_keys (funcs_ scenario_piecewise)).
Proof.
  apply (@built_keys_strictly_increasing Q Q Q_ScalarOps Q_ScalarOrderLaws).
  apply (@built_append Q Q Q_ScalarOps
           {| funcs_ := [(1%Q, Polynomial_Func (Constant 5%Q))]; tLowerLimit_ := 0%Q |}
           scenario_piecewise 2%Q (Polynomial_Func (Constant 9%Q))); [|reflexivity].
  apply (@built_append Q Q Q_ScalarOps (setDomainLowerLimit PiecewiseFunc_new 0%Q)
           _ 1%Q (Polynomial_Func (Constant 5%Q))); [|reflexivity].
  apply built_lower. apply built_new.
Defined.

(** X2: after [appendFunc] under a key t that is not below the lower limit,
    evaluating at t gives the appended function when no stored key was equal
    to t, and the function already stored under t when one was. *)
Theorem appendFunc_then_evaluate :
  forall (R T : Type) (SO : ScalarOps R),
    ScalarOrderLaws R ->
    forall (pf : PiecewiseFunc R T) (t : R) (func : Func R T) (order : Z),
      map_sorted (funcs_ pf) ->
      sltb t (tLowerLimit_ pf) = false ->
      exists pf',
        appendFunc pf t func = Ret pf'
        /\ ((forall k, In k (map_keys (funcs_ pf)) -> sltb t k = true \/ sltb k t = true) ->
            PiecewiseFunc_call pf' t = call func t
            /\ PiecewiseFunc_derivative pf' t order = derivative func t order)
        /\ (forall old, In (t, old) (funcs_ pf) ->
                        PiecewiseFunc_call pf' t = call old t
                        /\ PiecewiseFunc_derivative pf' t order = derivative old t order).
Proof.
  intros R T SO HO pf t func order Hs Hlo.
  exists {| funcs_ := map_insert t func (funcs_ pf); tLowerLimit_ := tLowerLimit_ pf |}.
  split; [reflexivity|].
  assert (Hs' : map_sorted (map_insert t func (funcs_ pf))) by now apply map_insert_sorted.
  split.
  - intro Hfresh.
    destruct (@dispatch_boundary R T SO HO
                {| funcs_ := map_insert t func (funcs_ pf); tLowerLimit_ := tLowerLimit_ pf |}
                t func Hs' (map_insert_fresh t func (funcs_ pf) Hfresh) Hlo) as [Hc Hd].
    split; [exact Hc | apply Hd].
  - intros old Hin.
    destruct (@dispatch_boundary R T SO HO
                {| funcs_ := map_insert t func (funcs_ pf); tLowerLimit_ := tLowerLimit_ pf |}
                t old Hs' (map_insert_keeps t func (funcs_ pf) _ Hin) Hlo) as [Hc Hd].
    split; [exact Hc | apply Hd].
Qed.

Lemma appendFunc_then_evaluate_witness :
  exists pf',
    appendFunc scenario_piecewise (3 # 2) (Polynomial_Func (Constant 7%Q)) = Ret pf'
    /\ ((forall k, In k (map_keys (funcs_ scenario_piecewise)) ->
                   sltb (3 # 2) k = true \/ sltb k (3 # 2) = true) ->
        PiecewiseFunc_call pf' (3 # 2) = call (Polynomial_Func (Constant 7%Q)) (3 # 2)
        /\ PiecewiseFunc_derivative pf' (3 # 2) 1
           = derivative (Polynomial_Func (Constant 7%Q)) (3 # 2) 1)
    /\ (forall old, In ((3 # 2), old) (funcs_ scenario_piecewise) ->
                    PiecewiseFunc_call pf' (3 # 2) = call old (3 # 2)
                    /\ PiecewiseFunc_derivative pf' (3 # 2) 1 = derivative old (3 # 2) 1).
Proof.
  apply (@appendFunc_then_evaluate Q Q Q_ScalarOps Q_ScalarOrderLaws).
  - cbn. repeat constructor.
  - reflexivity.
Defined.

(** ** Appending at the end, the intended use *)

Section ExtendProofs.
Context {R T : Type} `{ScalarOps R} {HO : ScalarOrderLaws R}.

Lemma keys_below_entries (m : list (R * Func R T)) (t : R) :
  (forall k, In k (map_keys m) -> sltb k t = true) ->
  Forall (fun e => sltb (fst e) t = true) m.
Proof.
  intro Hall. apply Forall_forall. intros e He. apply Hall.
  unfold map_keys. now apply in_map.
Qed.

Lemma appendFunc_extends (pf : PiecewiseFunc R T) (t : R) (func : Func R T) :
  (forall k, In k (map_keys (funcs_ pf)) -> sltb k t = true) ->
  appendFunc pf t func
  = Ret {| funcs_ := funcs_ pf ++ [(t, func)]; tLowerLimit_ := tLowerLimit_ pf |}.
Proof.
  intro Hall. unfold appendFunc.
  rewrite map_insert_above by (apply keys_below_entries; exact Hall). reflexivity.
Qed.

(** In the old domain the extended container answers as the old one did. *)
Lemma extended_same_values (pf : PiecewiseFunc R T) (t : R) (func : Func R T) (t0 : R) :
  funcs_ pf <> [] ->
  (forall k, In k (map_keys (funcs_ pf)) -> sltb k t = true) ->
  sltb t0 (tLowerLimit_ pf) = false ->
  sltb (PiecewiseFunc_domainUpperLimit pf) t0 = false ->
  PiecewiseFunc_call
    {| funcs_ := funcs_ pf ++ [(t, func)]; tLowerLimit_ := tLowerLimit_ pf |} t0
  = PiecewiseFunc_call pf t0
  /\ forall order,
      PiecewiseFunc_derivative
        {| funcs_ := funcs_ pf ++ [(t, func)]; tLowerLimit_ := tLowerLimit_ pf |} t0 order
      = PiecewiseFunc_derivative pf t0 order.
Proof.
  intros Hne Hall Hlo Hup.
  destruct (map_rbegin_nonempty Hne) as [e He].
  rewrite (domainUpperLimit_rbegin pf He) in Hup.
  destruct (map_lower_bound_found _ t0 He Hup) as (k & f & Hlb & Hin & Hk).
  destruct (dispatch_to pf t0 (checkArg_inside pf t0 He Hlo Hup) Hlb) as [Hc Hd].
  assert (Hup' : sltb t t0 = false).
  { destruct (sltb t t0) eqn:Hx; [|reflexivity].
    assert (Het : sltb (fst e) t = true).
    { apply Hall. unfold map_keys. apply in_map. now apply map_rbegin_In. }
    pose proof (sltb_trans _ _ _ Het Hx). congruence. }
  set (pf' := {| funcs_ := funcs_ pf ++ [(t, func)]; tLowerLimit_ := tLowerLimit_ pf |}).
  assert (He' : map_rbegin (funcs_ pf') = Some (t, func)) by apply map_rbegin_snoc.
  assert (Hlb' : map_lower_bound t0 (funcs_ pf') = Some (k, f))
    by (apply map_lower_bound_app; exact Hlb).
  destruct (dispatch_to pf' t0 (checkArg_inside pf' t0 He' Hlo Hup') Hlb') as [Hc' Hd'].
  split; [congruence | intro order; rewrite Hd, Hd'; reflexivity].
Qed.

(** Segments given in increasing key order are stored in that order. *)
Lemma appendFuncs_in_order (segs : list (R * Func R T)) :
  forall (m : list (R * Func R T)) (lo : R),
    map_sorted (m ++ segs) ->
    appendFuncs {| funcs_ := m; tLowerLimit_ := lo |} segs
    = Ret {| funcs_ := m ++ segs; tLowerLimit_ := lo |}.
Proof.
  induction segs as [|[t f] segs IH]; intros m lo Hs.
  - cbn [appendFuncs]. now rewrite app_nil_r.
  - cbn [appendFuncs]. rewrite appendFunc_extends.
    + cbn [bind funcs_ tLowerLimit_].
      rewrite IH; rewrite <- app_assoc; [reflexivity | exact Hs].
    + cbn [funcs_]. intros k Hk.
      pose proof (map_sorted_app _ _ _ _ Hs) as Hbelow.
      rewrite Forall_forall in Hbelow. unfold map_keys in Hk.
      apply in_map_iff in Hk. destruct Hk as (e & <- & He). now apply Hbelow.
Qed.

End ExtendProofs.

(** X3: appending a segment whose key is above every stored key puts it
    last: the upper limit becomes the new key, the lower limit stays, and at
    every point of the old domain the value and the derivatives are the ones
    the container gave before. *)
Theorem appendFunc_extends_domain :
  forall (R T : Type) (SO : ScalarOps R),
    ScalarOrderLaws R ->
    forall (pf : PiecewiseFunc R T) (t : R) (func : Func R T),
      (forall k, In k (map_keys (funcs_ pf)) -> sltb k t = true) ->
      exists pf',
        appendFunc pf t func = Ret pf'
        /\ funcs_ pf' = funcs_ pf ++ [(t, func)]
        /\ PiecewiseFunc_domainUpperLimit pf' = t
        /\ PiecewiseFunc_domainLowerLimit pf' = PiecewiseFunc_domainLowerLimit pf
        /\ (funcs_ pf <> [] ->
            forall (t0 : R) (order : Z),
              sltb t0 (PiecewiseFunc_domainLowerLimit pf) = false ->
              sltb (PiecewiseFunc_domainUpperLimit pf) t0 = false ->
              PiecewiseFunc_call pf' t0 = PiecewiseFunc_call pf t0
              /\ PiecewiseFunc_derivative pf' t0 order = PiecewiseFunc_derivative pf t0 order).
Proof.
  intros R T SO HO pf t func Hall.
  exists {| funcs_ := funcs_ pf ++ [(t, func)]; tLowerLimit_ := tLowerLimit_ pf |}.
  split; [now apply appendFunc_extends|]. split; [reflexivity|]. split.
  - apply (domainUpperLimit_rbegin
             {| funcs_ := funcs_ pf ++ [(t, func)]; tLowerLimit_ := tLowerLimit_ pf |}
             (map_rbegin_snoc (funcs_ pf) (t, func))).
  - split; [reflexivity|]. intros Hne t0 order Hlo Hup.
    destruct (extended_same_values pf t func t0 Hne Hall Hlo Hup) as [Hc Hd].
    split; [exact Hc | apply Hd].
Qed.

Lemma appendFunc_extends_domain_witness :
  exists pf',
    appendFunc scenario_piecewise 3%Q (Polynomial_Func (Constant 7%Q)) = Ret pf'
    /\ funcs_ pf' = funcs_ scenario_piecewise ++ [(3%Q, Polynomial_Func (Constant 7%Q))]
    /\ PiecewiseFunc_domainUpperLimit pf' = 3%Q
    /\ PiecewiseFunc_domainLowerLimit pf' = PiecewiseFunc_domainLowerLimit scenario_piecewise
    /\ (funcs_ scenario_piecewise <> [] ->
        forall (t0 : Q) (order : Z),
          sltb t0 (PiecewiseFunc_domainLowerLimit scenario_piecewise) = false ->
          sltb (PiecewiseFunc_domainUpperLimit scenario_piecewise) t0 = false ->
          PiecewiseFunc_call pf' t0 = PiecewiseFunc_call scenario_piecewise t0
          /\ PiecewiseFunc_derivative pf' t0 order
             = PiecewiseFunc_derivative scenario_piecewise t0 order).
Proof.
  apply (@appendFunc_extends_domain Q Q Q_ScalarOps Q_ScalarOrderLaws).
  intros k [<- | [<- | []]]; reflexivity.
Defined.

(** X4: segments appended to an empty container with strictly increasing
    keys are stored exactly as given, in the order given, and the lower limit
    is untouched. *)
Theorem appendFuncs_increasing_keys :
  forall (R T : Type) (SO : ScalarOps R),
    ScalarOrderLaws R ->
    forall (segs : list (R * Func R T)) (pf0 : PiecewiseFunc R T),
      funcs_ pf0 = [] -> map_sorted segs ->
      appendFuncs pf0 segs = Ret {| funcs_ := segs; tLowerLimit_ := tLowerLimit_ pf0 |}.
Proof.
  intros R T SO HO segs [m lo] Hempty Hs. cbn [funcs_ tLowerLimit_] in *. subst m.
  now rewrite (appendFuncs_in_order segs [] lo Hs).
Qed.

Lemma appendFuncs_increasing_keys_witness :
  appendFuncs (setDomainLowerLimit PiecewiseFunc_new 0%Q) scenario_segments
  = Ret {| funcs_ := scenario_segments;
           tLowerLimit_ := tLowerLimit_ (setDomainLowerLimit (PiecewiseFunc_new (T := Q)) 0%Q) |}.
Proof.
  apply (@appendFuncs_increasing_keys Q Q Q_ScalarOps Q_ScalarOrderLaws).
  - reflexivity.
  - cbn. repeat constructor.
Defined.

(** ** The order of the appends *)

Section CommuteProofs.
Context {R T : Type} `{ScalarOps R} {HO : ScalarOrderLaws R}.

Lemma map_insert_comm_lt (k1 k2 : R) (v1 v2 : Func R T) (m : list (R * Func R T)) :
  sltb k1 k2 = true ->
  map_insert k1 v1 (map_insert k2 v2 m) = map_insert k2 v2 (map_insert k1 v1 m).
Proof.
  intro Hlt. pose proof (sltb_asym _ _ Hlt) as Hgt.
  induction m as [|[k0 v0] m IH].
  - cbn [map_insert]. now rewrite Hlt, Hgt.
  - cbn [map_insert]. destruct (sltb k2 k0) eqn:H20.
    + rewrite (sltb_trans _ _ _ Hlt H20). cbn [map_insert].
      now rewrite Hlt, Hgt, H20.
    + destruct (sltb k0 k2) eqn:H02.
      * cbn [map_insert]. destruct (sltb k1 k0) eqn:H10.
        { cbn [map_insert]. now rewrite Hgt, Hlt, H20, H02. }
        destruct (sltb k0 k1) eqn:H01.
        { cbn [map_insert]. now rewrite H20, H02, IH. }
        cbn [map_insert]. now rewrite H20, H02.
      * assert (H10 : sltb k1 k0 = true).
        { destruct (sltb_cotrans k1 k0 k2 Hlt) as [Hx | Hx]; congruence. }
        cbn [map_insert]. rewrite H10. cbn [map_insert].
        now rewrite Hgt, Hlt, H20, H02.
Qed.

Lemma map_insert_comm (k1 k2 : R) (v1 v2 : Func R T) (m : list (R * Func R T)) :
  (k1, v1) = (k2, v2) \/ sltb k1 k2 = true \/ sltb k2 k1 = true ->
  map_insert k1 v1 (map_insert k2 v2 m) = map_insert k2 v2 (map_insert k1 v1 m).
Proof.
  intros [Heq | [Hlt | Hgt]].
  - injection Heq as -> ->. reflexivity.
  - now apply map_insert_comm_lt.
  - symmetry. now apply map_insert_comm_lt.
Qed.

Lemma appendFuncs_permutation (segs segs' : list (R * Func R T)) :
  Permutation segs segs' ->
  (forall a b, In a segs -> In b segs ->
               a = b \/ sltb (fst a) (fst b) = true \/ sltb (fst b) (fst a) = true) ->
  forall pf : PiecewiseFunc R T, appendFuncs pf segs = appendFuncs pf segs'.
Proof.
  induction 1 as [| x l l' Hp IH | [kx vx] [ky vy] l | l l' l'' Hp1 IH1 Hp2 IH2];
    intros Hdist pf.
  - reflexivity.
  - destruct x as [t f]. cbn [appendFuncs appendFunc bind]. apply IH.
    intros a b Ha Hb. apply Hdist; now right.
  - cbn [appendFuncs appendFunc bind funcs_ tLowerLimit_].
    rewrite (@map_insert_comm kx ky vx vy (funcs_ pf)); [reflexivity|].
    destruct (Hdist (kx, vx) (ky, vy)) as [Heq | Hne];
      [right; now left | now left | now left | right; exact Hne].
  - rewrite IH1 by exact Hdist. apply IH2.
    intros a b Ha Hb. apply Hdist; eapply Permutation_in; try eassumption;
      now apply Permutation_sym.
Qed.

End CommuteProofs.

(** X5: when the segments to append have pairwise different keys, the
    container that results does not depend on the order of the [appendFunc]
    calls. *)
Theorem appendFuncs_order_irrelevant :
  forall (R T : Type) (SO : ScalarOps R),
    ScalarOrderLaws R ->
    forall (segs segs' : list (R * Func R T)) (pf : PiecewiseFunc R T),
      Permutation segs segs' ->
      (forall a b, In a segs -> In b segs ->
                   a = b \/ sltb (fst a) (fst b) = true \/ sltb (fst b) (fst a) = true) ->
      appendFuncs pf segs = appendFuncs pf segs'.
Proof.
  intros R T SO HO segs segs' pf Hp Hdist. now apply appendFuncs_permutation.
Qed.

Lemma appendFuncs_order_irrelevant_witness :
  appendFuncs (setDomainLowerLimit PiecewiseFunc_new 0%Q)
              [(2%Q, Polynomial_Func (Constant 9%Q)); (1%Q, Polynomial_Func (Constant 5%Q))]
  = appendFuncs (setDomainLowerLimit PiecewiseFunc_new 0%Q)
                [(1%Q, Polynomial_Func (Constant 5%Q)); (2%Q, Polynomial_Func (Constant 9%Q))].
Proof.
  apply (@appendFuncs_order_irrelevant Q Q Q_ScalarOps Q_ScalarOrderLaws).
  - apply perm_swap.
  - intros a b [<- | [<- | []]] [<- | [<- | []]]; cbn [fst];
      first [ left; reflexivity | right; left; reflexivity | right; right; reflexivity ].
Defined.

(** ** Polynomial: every derivative order *)

Lemma for_loop_ext {R St : Type} (body body' : Z -> St -> outcome R St) :
  (forall j s, body j s = body' j s) ->
  forall (fuel : nat) (i : Z) (s : St), for_loop fuel i body s = for_loop fuel i body' s.
Proof.
  intros Hext. induction fuel as [|fuel IH]; intros i s; cbn [for_loop].
  - reflexivity.
  - rewrite Hext. destruct (body' i s); cbn [bind]; [apply IH | reflexivity | reflexivity].
Qed.

Section PolynomialOrders.
Context {R T : Type} `{ScalarOps R} `{VectorOps R T}.

Lemma Polynomial_derivative_0 (p : Polynomial R T) (t : R) :
  0 <= Order p -> Polynomial_derivative p t 0 = Polynomial_call p t.
Proof.
  intro Hord. unfold Polynomial_derivative, Polynomial_call.
  destruct (Order p <? 0) eqn:Hneg; [apply Z.ltb_lt in Hneg; lia|].
  destruct (array_get (coeff_ p) 0) as [c0| |]; cbn [bind]; try reflexivity.
  unfold for_range at 1. cbn [Z.sub Z.opp Z.add Z.to_nat Z.pos_sub for_loop bind].
  rewrite Z.sub_0_r. unfold for_range at 1 3. apply for_loop_ext.
  intros j s. rewrite Z.add_0_r.
  destruct (array_get (coeff_ p) (j + 1)); reflexivity.
Qed.

Lemma Polynomial_call_returns (p : Polynomial R T) (t : R) :
  Polynomial_wf p -> exists v, Polynomial_call p t = Ret v.
Proof.
  intros [Hord Hwf]. unfold Polynomial_call.
  rewrite (array_get_in_range (coeff_ p) vzero) by lia. cbn [bind]. unfold for_range.
  eexists.
  apply (for_loop_pure _
           (fun i ret => vadd ret (vscale (nth (Z.to_nat (i + 1)) (coeff_ p) vzero)
                                          (std_pow (ssub t (t0_ p)) (i + 1))))).
  intros j s' Hj. rewrite (array_get_in_range (coeff_ p) vzero) by lia. reflexivity.
Qed.

Lemma Polynomial_derivative_returns (p : Polynomial R T) (t : R) (k : Z) :
  Polynomial_wf p -> 0 <= k -> exists v, Polynomial_derivative p t k = Ret v.
Proof.
  intros [Hord Hwf] Hk. unfold Polynomial_derivative.
  destruct (Order p <? k) eqn:Hgt; [now eexists|]. apply Z.ltb_ge in Hgt.
  rewrite (array_get_in_range (coeff_ p) vzero) by lia. cbn [bind].
  unfold for_range at 1.
  rewrite (for_loop_pure _ (fun j r => vscale r (of_int (k - j)))) by reflexivity.
  cbn [bind]. unfold for_range at 1. eexists.
  apply (for_loop_pure _
           (fun i ret =>
              vadd ret
                   (loop_pure (Z.to_nat k) 0
                              (fun j term => vscale term (of_int (i + 1 + k - j)))
                              (vscale (nth (Z.to_nat (i + 1 + k)) (coeff_ p) vzero)
                                      (std_pow (ssub t (t0_ p)) (i + 1)))))).
  intros j s' Hj. rewrite (array_get_in_range (coeff_ p) vzero) by lia. cbn [bind].
  unfold for_range.
  rewrite (for_loop_pure _ (fun j0 term => vscale term (of_int (j + 1 + k - j0))))
    by reflexivity.
  reflexivity.
Qed.

Lemma Polynomial_derivative_negative (p : Polynomial R T) (t : R) (k : Z) :
  0 <= Order p -> k < 0 -> Polynomial_derivative p t k = Undefined.
Proof.
  intros Hord Hk. unfold Polynomial_derivative.
  destruct (Order p <? k) eqn:Hgt; [apply Z.ltb_lt in Hgt; lia|].
  unfold array_get. apply Z.ltb_lt in Hk. now rewrite Hk.
Qed.

Context {HM : ScalarMulLaws R} {HV : VectorLaws R T}.

Lemma falling_full (k : Z) :
  0 <= k -> falling k (Z.to_nat (k - 1)) = falling k (Z.to_nat k).
Proof.
  intro Hk. destruct (Z.eq_dec k 0) as [-> | Hne]; [reflexivity|].
  replace (Z.to_nat k) with (S (Z.to_nat (k - 1))) by lia.
  rewrite falling_S_r.
  replace (k - Z.of_nat (Z.to_nat (k - 1))) with 1 by lia. now rewrite Z.mul_1_r.
Qed.

Lemma Polynomial_derivative_top (p : Polynomial R T) (t : R) :
  Polynomial_wf p ->
  Polynomial_derivative p t (Order p)
  = Ret (vscale (coeff_at p (Z.to_nat (Order p)))
                (of_int (falling (Order p) (Z.to_nat (Order p))))).
Proof.
  intros [Hord Hwf]. unfold Polynomial_derivative.
  rewrite Z.ltb_irrefl.
  rewrite (array_get_in_range (coeff_ p) vzero) by lia. cbn [bind].
  rewrite scale_loop_falling. cbn [bind].
  rewrite Z.sub_diag. unfold for_range. cbn [Z.to_nat for_loop].
  now rewrite falling_full.
Qed.

End PolynomialOrders.

(** X6: on a polynomial of non-negative order, [derivative(t, 0)] is
    [operator()(t)], in every outcome. *)
Theorem Polynomial_derivative_order_0 :
  forall (R T : Type) (SO : ScalarOps R) (VO : VectorOps R T) (p : Polynomial R T) (t : R),
    0 <= Order p -> Polynomial_derivative p t 0 = Polynomial_call p t.
Proof.
  intros R T SO VO p t Hord. now apply Polynomial_derivative_0.
Qed.

Lemma Polynomial_derivative_order_0_witness :
  Polynomial_derivative scenario_line 3%Q 0 = Polynomial_call scenario_line 3%Q.
Proof.
  apply (@Polynomial_derivative_order_0 Q (Vector3d Q) Q_ScalarOps Q3_VectorOps).
  discriminate.
Defined.

(** X7: [operator()] and [derivative] of a polynomial with [Order + 1]
    coefficients return a value for every t and every order k >= 0 (no throw,
    no out-of-range read); a negative order reads [coeff_] before its first
    element. *)
Theorem Polynomial_defined_for_orders_from_0 :
  forall (R T : Type) (SO : ScalarOps R) (VO : VectorOps R T)
         (p : Polynomial R T) (t : R) (k : Z),
    Polynomial_wf p ->
    (exists v, Polynomial_call p t = Ret v)
    /\ (0 <= k -> exists v, Polynomial_derivative p t k = Ret v)
    /\ (k < 0 -> Polynomial_derivative p t k = Undefined).
Proof.
  intros R T SO VO p t k Hwf. split; [|split].
  - now apply Polynomial_call_returns.
  - intro Hk. now apply Polynomial_derivative_returns.
  - intro Hk. apply Polynomial_derivative_negative; [apply Hwf | exact Hk].
Qed.

Lemma Polynomial_defined_for_orders_from_0_witness :
  (exists v, Polynomial_call scenario_line 3%Q = Ret v)
  /\ (0 <= -1 -> exists v, Polynomial_derivative scenario_line 3%Q (-1) = Ret v)
  /\ (-1 < 0 -> Polynomial_derivative scenario_line 3%Q (-1) = Undefined).
Proof.
  apply (@Polynomial_defined_for_orders_from_0 Q (Vector3d Q) Q_ScalarOps Q3_VectorOps).
  split; [discriminate | reflexivity].
Defined.

(** X8: the derivative of order [Order] does not depend on t: it is the
    leading coefficient scaled by Order (Order - 1) ... 1. *)
Theorem Polynomial_top_derivative_constant :
  forall (R T : Type) (SO : ScalarOps R) (VO : VectorOps R T),
    ScalarMulLaws R -> VectorLaws R T ->
    forall (p : Polynomial R T) (t : R),
      Polynomial_wf p ->
      Polynomial_derivative p t (Order p)
      = Ret (vscale (coeff_at p (Z.to_nat (Order p)))
                    (of_int (falling (Order p) (Z.to_nat (Order p))))).
Proof.
  intros R T SO VO HM HV p t Hwf. now apply Polynomial_derivative_top.
Qed.

Lemma Polynomial_top_derivative_constant_witness :
  Polynomial_derivative scenario_polynomial 5%Q 2 = Ret (Qmult 3%Q (inject_Z 2)).
Proof.
  apply (@Polynomial_top_derivative_constant Q Q Q_ScalarOps Q_VectorOps
           Q_ScalarMulLaws Q_VectorLaws scenario_polynomial 5%Q).
  split; [discriminate | reflexivity].
Defined.

(** ** Piecewise polynomials *)

(** X9: on a container whose segments are all polynomials, every t within
    the domain gets a value: the power sum of the polynomial stored under the
    smallest key not below t; out-of-range reads cannot happen. *)
Theorem PiecewiseFunc_of_polynomials_value :
  forall (R T : Type) (SO : ScalarOps R) (VO : VectorOps R T),
    ScalarOrderLaws R -> VectorLaws R T ->
    forall (pf : PiecewiseFunc R T) (t : R),
      map_sorted (funcs_ pf) -> funcs_ pf <> [] -> polynomial_segments pf ->
      sltb t (PiecewiseFunc_domainLowerLimit pf) = false ->
      sltb (PiecewiseFunc_domainUpperLimit pf) t = false ->
      exists (k : R) (p : Polynomial R T),
        In (k, Polynomial_Func p) (funcs_ pf)
        /\ sltb k t = false
        /\ (forall k', In k' (map_keys (funcs_ pf)) -> sltb k' t = false -> sltb k' k = false)
        /\ PiecewiseFunc_call pf t = Ret (spec_value p t)
        /\ (forall order, 0 <= order ->
                          exists v, PiecewiseFunc_derivative pf t order = Ret v).
Proof.
  intros R T SO VO HO HV pf t Hs Hne Hpoly Hlo Hup.
  destruct (@dispatch_least R T SO HO pf t Hs Hne Hlo Hup)
    as (k & f & _ & Hin & Hk & Hleast & Hc & Hd).
  destruct (Hpoly k f Hin) as (p & Hwf & ->).
  exists k, p. repeat split; try assumption.
  - rewrite Hc. cbn [call Polynomial_Func]. now apply Polynomial_call_spec.
  - intros order Hord. rewrite Hd. cbn [derivative Polynomial_Func].
    now apply Polynomial_derivative_returns.
Qed.

Lemma PiecewiseFunc_of_polynomials_value_witness :
  exists (k : Q) (p : Polynomial Q Q),
    In (k, Polynomial_Func p) (funcs_ scenario_piecewise)
    /\ sltb k (3 # 2) = false
    /\ (forall k', In k' (map_keys (funcs_ scenario_piecewise)) ->
                   sltb k' (3 # 2) = false -> sltb k' k = false)
    /\ PiecewiseFunc_call scenario_piecewise (3 # 2) = Ret (spec_value p (3 # 2))
    /\ (forall order, 0 <= order ->
                      exists v, PiecewiseFunc_derivative scenario_piecewise (3 # 2) order = Ret v).
Proof.
  apply (@PiecewiseFunc_of_polynomials_value Q Q Q_ScalarOps Q_VectorOps
           Q_ScalarOrderLaws Q_VectorLaws scenario_piecewise (3 # 2)).
  - cbn. repeat constructor.
  - discriminate.
  - intros k f [Hin | [Hin | []]]; injection Hin as <- <-.
    + exists (Constant 5%Q). split; [split; [discriminate | reflexivity] | reflexivity].
    + exists (Constant 9%Q). split; [split; [discriminate | reflexivity] | reflexivity].
  - reflexivity.
  - reflexivity.
Defined.

(** ** runMpc: what the solver is given and what is kept *)

Section TickProofs.
Context {R : Type} `{ScalarOps R}.
Variable E : Collaborators R.

Lemma warm_start_length (m : CentroidalManagerDdpZmp R) (ddp : DdpZmp R)
      (u : list (Vector3d R)) :
  warm_start E m ddp = Ret u -> Z.of_nat (length u) = horizon_steps ddp.
Proof.
  unfold warm_start, size_eq_int, vector_assign.
  destruct (Z.of_nat (length (u_list ddp)) =? horizon_steps ddp) eqn:Heq.
  - intro Hu. injection Hu as <-. now apply Z.eqb_eq.
  - destruct (horizon_steps ddp <? 0) eqn:Hneg; [discriminate|].
    intro Hu. injection Hu as <-. rewrite repeat_length.
    apply Z.ltb_ge in Hneg. lia.
Qed.

Lemma runMpc_length_checked (m : CentroidalManagerDdpZmp R) (now : R) :
  runMpc (length_checked E) m now = runMpc E m now.
Proof.
  unfold runMpc. destruct (ddp_ m) as [ddp|]; cbn [deref bind]; [|reflexivity].
  change (warm_start (length_checked E) m ddp) with (warm_start E m ddp).
  destruct (warm_start E m ddp) as [u| |] eqn:Hu; cbn [bind]; try reflexivity.
  cbn [planOnce length_checked ip_u_list].
  apply warm_start_length in Hu. apply Z.eqb_eq in Hu. rewrite Hu. reflexivity.
Qed.

Lemma runMpc_inversion (m m' : CentroidalManagerDdpZmp R) (now : R) :
  runMpc E m now = Ret m' ->
  exists ddp u r,
    ddp_ m = Some ddp
    /\ warm_start E m ddp = Ret u
    /\ planOnce E ddp (calcRefData E m)
                {| ip_pos := mpcCom_ m; ip_vel := mpcComVel_ m; ip_u_list := u |} now = Ret r
    /\ m' = publish m r.
Proof.
  unfold runMpc. destruct (ddp_ m) as [ddp|]; cbn [deref bind]; [|discriminate].
  destruct (warm_start E m ddp) as [u| |] eqn:Hu; cbn [bind]; try discriminate.
  destruct (planOnce E ddp _ _ now) as [r| |] eqn:Hr; cbn [bind]; try discriminate.
  intro Hret. injection Hret as <-. exists ddp, u, r.
  split; [reflexivity | split; [exact Hu | split; [exact Hr | reflexivity]]].
Qed.

End TickProofs.

(** X10: every initial guess [runMpc] passes to the solver has exactly
    [horizon_steps] entries: a solver that refuses any other length cannot be
    told apart from the given one by any tick. *)
Theorem runMpc_guess_has_horizon_length :
  forall (R : Type) (SO : ScalarOps R) (E : Collaborators R)
         (m : CentroidalManagerDdpZmp R) (now : R),
    runMpc (length_checked E) m now = runMpc E m now.
Proof.
  intros R SO E m now. apply runMpc_length_checked.
Qed.



(** X12: the sequence the solver leaves behind is the next warm start: if a
    tick returned and the solver's stored sequence has [horizon_steps]
    entries, the next tick, whatever the new CoM estimate, calls the solver
    with exactly that sequence. *)
Theorem runMpc_next_tick_reuses :
  forall (R : Type) (SO : ScalarOps R) (E : Collaborators R)
         (m m1 : CentroidalManagerDdpZmp R) (now now' : R) (com vel : Vector3d R),
    runMpc E m now = Ret m1 ->
    exists ddp1,
      ddp_ m1 = Some ddp1
      /\ (Z.of_nat (length (u_list ddp1)) = horizon_steps ddp1 ->
          runMpc E (set_com m1 com vel) now'
          = solve_with E (set_com m1 com vel) ddp1 now' (u_list ddp1)).
Proof.
  intros R SO E m m1 now now' com vel Hret.
  destruct (runMpc_inversion E m now Hret) as (ddp & u & r & _ & _ & _ & ->).
  exists (snd r). split; [reflexivity|].
  intro Hlen. now apply runMpc_reuse.
Qed.

Lemma runMpc_next_tick_reuses_witness :
  exists ddp1,
    ddp_ scenario_ticked = Some ddp1
    /\ (Z.of_nat (length (u_list ddp1)) = horizon_steps ddp1 ->
        runMpc Q_collaborators
               (set_com scenario_ticked {| vx := 1 # 5; vy := 0%Q; vz := 4 # 5 |}
                        {| vx := 1%Q; vy := 0%Q; vz := 0%Q |}) 1%Q
        = solve_with Q_collaborators
                     (set_com scenario_ticked {| vx := 1 # 5; vy := 0%Q; vz := 4 # 5 |}
                              {| vx := 1%Q; vy := 0%Q; vz := 0%Q |})
                     ddp1 1%Q (u_list ddp1)).
Proof.
  exact (@runMpc_next_tick_reuses Q Q_ScalarOps Q_collaborators scenario_ready
           scenario_ticked 0%Q 1%Q {| vx := 1 # 5; vy := 0%Q; vz := 4 # 5 |}
           {| vx := 1%Q; vy := 0%Q; vz := 0%Q |} eq_refl).
Defined.

(** ** InitialState: from the start signal to the loggers *)

Section InitialStateProofs.
Context {R : Type} `{ScalarOps R} {Foot : Type}.
Variable Both : list Foot.

Local Abbreviation State := (@InitialState.State R).
Local Abbreviation Controller := (@InitialState.Controller R Foot).
Local Abbreviation run := (InitialState.run Both).
Local Abbreviation run_ticks := (InitialState.run_ticks Both).
Local Abbreviation at_time := (@InitialState.at_time R Foot).
Local Abbreviation bring_up := (InitialState.bring_up Both).
Local Abbreviation add_loggers := (InitialState.add_loggers Foot).
Local Abbreviation set_phase := (@InitialState.set_phase R).
Local Abbreviation phase_ := (@InitialState.phase_ R).
Local Abbreviation st_config := (@InitialState.config_ R).

Ltac simpl_ctl :=
  unfold InitialState.start, InitialState.press_Start, InitialState.call,
    InitialState.at_time, InitialState.set_phase;
  cbn [fst snd InitialState.phase_ InitialState.config_ InitialState.output_
       InitialState.t InitialState.enableManagerUpdate_ InitialState.gui_Start
       InitialState.calls].

Lemma concat_repeat_snoc {A : Type} (l : list A) (n : nat) :
  concat (repeat l n) ++ l = concat (repeat l (S n)).
Proof.
  induction n as [|n IH]; cbn [repeat concat] in *.
  - now rewrite app_nil_r.
  - now rewrite <- app_assoc, IH.
Qed.

Lemma last_nonempty_default {A : Type} (l : list A) (a d d' : A) :
  last (a :: l) d = last (a :: l) d'.
Proof.
  revert a. induction l as [|b l IH]; intro a; [reflexivity|].
  change (last (a :: b :: l) d) with (last (b :: l) d).
  change (last (a :: b :: l) d') with (last (b :: l) d'). apply IH.
Qed.

(** While no auto start is due, a tick in phase 0 changes nothing but the
    clock. *)
Lemma run_waits (st : State) (ctl : Controller) (now : R) :
  phase_ st = 0 ->
  (forall a, st_config st = Some (Some a) -> sltb a now = false) ->
  run st (at_time ctl now) = (false, st, at_time ctl now).
Proof.
  intros Hph Hcfg. unfold InitialState.run. rewrite Hph. cbn [Z.eqb].
  destruct (st_config st) as [[a|]|] eqn:Hc; try reflexivity.
  cbn [InitialState.t InitialState.at_time]. now rewrite (Hcfg a eq_refl).
Qed.

Lemma run_ticks_wait (times : list R) :
  forall (st : State) (ctl : Controller),
    phase_ st = 0 ->
    (forall a, st_config st = Some (Some a) -> Forall (fun now => sltb a now = false) times) ->
    run_ticks times st ctl
    = (repeat false (length times), st,
       at_time ctl (last times (InitialState.t ctl))).
Proof.
  induction times as [|now times IH]; intros st ctl Hph Hcfg.
  - now destruct ctl.
  - cbn [InitialState.run_ticks]. rewrite run_waits; [|exact Hph|].
    + rewrite IH; [|exact Hph|].
      * cbn [length repeat]. f_equal. unfold InitialState.at_time.
        cbn [InitialState.t InitialState.enableManagerUpdate_ InitialState.gui_Start
             InitialState.calls].
        destruct times as [|now' times]; [reflexivity|].
        now rewrite (last_nonempty_default times now' now (InitialState.t ctl)).
      * intros a Ha. specialize (Hcfg a Ha). now inversion Hcfg.
    + intros a Ha. specialize (Hcfg a Ha). now inversion Hcfg.
Qed.


Lemma run_ticks_app (ts1 ts2 : list R) :
  forall (st : State) (ctl : Controller),
    run_ticks (ts1 ++ ts2) st ctl
    = let '(d1, st1, ctl1) := run_ticks ts1 st ctl in
      let '(d2, st2, ctl2) := run_ticks ts2 st1 ctl1 in
      (d1 ++ d2, st2, ctl2).
Proof.
  induction ts1 as [|now ts1 IH]; intros st ctl.
  - cbn [app InitialState.run_ticks]. now destruct (run_ticks ts2 st ctl) as [[d2 st2] ctl2].
  - cbn [app InitialState.run_ticks].
    destruct (run st (at_time ctl now)) as [[d st1] ctl1].
    rewrite IH. destruct (run_ticks ts1 st1 ctl1) as [[d1 st1'] ctl1'].
    now destruct (run_ticks ts2 st1' ctl1') as [[d2 st2] ctl2].
Qed.

Lemma run_at_1 (st : State) (ctl : Controller) :
  phase_ st = 1 ->
  run st ctl
  = (false, set_phase st 2,
     {| InitialState.t := InitialState.t ctl; InitialState.enableManagerUpdate_ := true;
        InitialState.gui_Start := false;
        InitialState.calls := InitialState.calls ctl ++ bring_up |}).
Proof.
  intro Hph. unfold InitialState.run. now rewrite Hph.
Qed.

Lemma run_at_other (st : State) (ctl : Controller) :
  phase_ st <> 0 -> phase_ st <> 1 ->
  run st ctl = (true, set_phase st 3, InitialState.call ctl add_loggers).
Proof.
  intros H0 H1. unfold InitialState.run.
  apply Z.eqb_neq in H0, H1. now rewrite H0, H1.
Qed.

(** From phase 1 two ticks finish the state. *)
Lemma run_ticks_from_1 (st : State) (ctl : Controller) (t1 t2 : R) :
  phase_ st = 1 ->
  run_ticks [t1; t2] st ctl
  = ([false; true], set_phase st 3,
     {| InitialState.t := t2; InitialState.enableManagerUpdate_ := true;
        InitialState.gui_Start := false;
        InitialState.calls := InitialState.calls ctl ++ bring_up ++ add_loggers |}).
Proof.
  intro Hph. cbn [InitialState.run_ticks].
  rewrite (run_at_1 st (at_time ctl t1) Hph).
  rewrite run_at_other; [| discriminate | discriminate].
  unfold InitialState.call, InitialState.at_time, InitialState.set_phase.
  cbn [InitialState.t InitialState.enableManagerUpdate_ InitialState.gui_Start
       InitialState.calls InitialState.config_ InitialState.output_].
  now rewrite <- app_assoc.
Qed.

(** Outside phases 0 and 1 every tick answers true and registers the
    loggers. *)
Lemma run_ticks_done (times : list R) :
  forall (st : State) (ctl : Controller),
    phase_ st <> 0 -> phase_ st <> 1 -> times <> [] ->
    run_ticks times st ctl
    = (repeat true (length times), set_phase st 3,
       {| InitialState.t := last times (InitialState.t ctl);
          InitialState.enableManagerUpdate_ := InitialState.enableManagerUpdate_ ctl;
          InitialState.gui_Start := InitialState.gui_Start ctl;
          InitialState.calls :=
            InitialState.calls ctl ++ concat (repeat add_loggers (length times)) |}).
Proof.
  induction times as [|now times IH]; intros st ctl H0 H1 Hne; [contradiction|].
  cbn [InitialState.run_ticks]. rewrite (run_at_other st (at_time ctl now) H0 H1).
  destruct times as [|now' times].
  - cbn [InitialState.run_ticks length repeat concat last].
    unfold InitialState.call, InitialState.at_time.
    cbn [InitialState.t InitialState.enableManagerUpdate_ InitialState.gui_Start
         InitialState.calls].
    now rewrite app_nil_r.
  - rewrite IH; [| discriminate | discriminate | discriminate].
    unfold InitialState.call, InitialState.at_time, InitialState.set_phase.
    cbn [InitialState.t InitialState.enableManagerUpdate_ InitialState.gui_Start
         InitialState.calls InitialState.config_ InitialState.output_].
    rewrite <- app_assoc.
    rewrite (last_nonempty_default times now' now (InitialState.t ctl)).
    reflexivity.
Qed.

Lemma run_at_0 (st : State) (ctl : Controller) :
  phase_ st = 0 ->
  exists st',
    run st ctl = (false, st', ctl)
    /\ st_config st' = st_config st
    /\ (phase_ st' = 0 \/ phase_ st' = 1).
Proof.
  intro Hph. unfold InitialState.run. rewrite Hph. cbn [Z.eqb].
  destruct (st_config st) as [[a|]|] eqn:Hc;
    try (exists st; repeat split; [exact Hc | now left]).
  destruct (sltb a (InitialState.t ctl)).
  - exists (set_phase st 1). repeat split; [exact Hc | now right].
  - exists st. repeat split; [exact Hc | now left].
Qed.

(** The shape of every situation that can follow [start]. *)
Lemma reachable_shape (st0 : State) (ctl0 : Controller) (st : State) (ctl : Controller) :
  InitialState.reachable Both st0 ctl0 st ctl ->
  st_config st = st_config st0
  /\ (((phase_ st = 0 \/ phase_ st = 1)
       /\ InitialState.gui_Start ctl = true
       /\ InitialState.enableManagerUpdate_ ctl = InitialState.enableManagerUpdate_ ctl0
       /\ InitialState.calls ctl = InitialState.calls ctl0 ++ [InitialState.State_start Foot])
      \/ (phase_ st = 2
          /\ InitialState.gui_Start ctl = false
          /\ InitialState.enableManagerUpdate_ ctl = true
          /\ InitialState.calls ctl
             = InitialState.calls ctl0 ++ [InitialState.State_start Foot] ++ bring_up)
      \/ (phase_ st = 3
          /\ InitialState.gui_Start ctl = false
          /\ InitialState.enableManagerUpdate_ ctl = true
          /\ exists n,
              InitialState.calls ctl
              = InitialState.calls ctl0 ++ [InitialState.State_start Foot] ++ bring_up
                ++ concat (repeat add_loggers (S n)))).
Proof.
  induction 1 as [| st ctl now _ IH | st ctl _ IH Hgui].
  - split; [reflexivity|]. left. simpl_ctl. repeat split. now left.
  - destruct IH as [Hcfg [(Hph & Hg & He & Hc) | [(Hph & Hg & He & Hc) | (Hph & Hg & He & n & Hc)]]].
    + destruct Hph as [Hph | Hph].
      * destruct (run_at_0 st (at_time ctl now) Hph) as (st' & -> & Hcfg' & Hph').
        cbn [fst snd]. split; [congruence|].
        left. split; [exact Hph' | repeat split; assumption].
      * rewrite (run_at_1 st (at_time ctl now) Hph). cbn [fst snd].
        split; [exact Hcfg|]. right. left. simpl_ctl. repeat split.
        rewrite Hc. now rewrite <- app_assoc.
    + rewrite run_at_other by (rewrite Hph; discriminate). cbn [fst snd].
      split; [exact Hcfg|]. right. right. simpl_ctl. repeat split; try assumption.
      exists 0%nat. rewrite Hc. cbn [repeat concat].
      rewrite app_nil_r, <- !app_assoc. reflexivity.
    + rewrite run_at_other by (rewrite Hph; discriminate). cbn [fst snd].
      split; [exact Hcfg|]. right. right. simpl_ctl. repeat split; try assumption.
      exists (S n). rewrite Hc. rewrite <- (concat_repeat_snoc add_loggers (S n)).
      rewrite <- !app_assoc. reflexivity.
  - destruct IH as [Hcfg [(Hph & Hg & He & Hc) | [(Hph & Hg & He & Hc) | (Hph & Hg & He & n & Hc)]]];
      try congruence.
    split; [exact Hcfg|]. left. simpl_ctl. repeat split; try assumption. now right.
Qed.

End InitialStateProofs.

(** X13: in phase 0 the state waits: while no "autoStartTime" is configured,
    or no tick comes later than it (a tick at exactly that time does not
    count), [run] answers false, makes no call and stays in phase 0. *)
Theorem InitialState_waits :
  forall (R : Type) (SO : ScalarOps R) (Foot : Type) (Both : list Foot)
         (st : InitialState.State) (ctl : InitialState.Controller Foot) (times : list R),
    InitialState.phase_ st = 0 ->
    (forall a, InitialState.config_ st = Some (Some a) ->
               Forall (fun now => sltb a now = false) times) ->
    InitialState.run_ticks Both times st ctl
    = (repeat false (length times), st,
       InitialState.at_time ctl (last times (InitialState.t ctl))).
Proof.
  intros R SO Foot Both st ctl times Hph Hcfg. now apply run_ticks_wait.
Qed.

Lemma InitialState_waits_witness :
  InitialState.run_ticks [Left; Right] [1%Q; 2%Q] scenario_state scenario_controller
  = (repeat false (length [1%Q; 2%Q]), scenario_state,
     InitialState.at_time scenario_controller
                          (last [1%Q; 2%Q] (InitialState.t scenario_controller))).
Proof.
  apply (@InitialState_waits Q Q_ScalarOps scenario_Foot).
  - reflexivity.
  - intros a Ha. injection Ha as <-. repeat constructor.
Defined.

(** X14: with "autoStartTime" configured, [run] answers true for the first
    time on the second tick after the first tick that is later than that
    time; by then the Start button is gone, the tasks and the managers have
    been brought up once and in the order of the source, manager updates are
    enabled, and the loggers have been registered after all of that. *)
Theorem InitialState_auto_start :
  forall (R : Type) (SO : ScalarOps R) (Foot : Type) (Both : list Foot)
         (st : InitialState.State) (ctl : InitialState.Controller Foot)
         (a : R) (waiting : list R) (now t1 t2 : R),
    InitialState.phase_ st = 0 ->
    InitialState.config_ st = Some (Some a) ->
    Forall (fun w => sltb a w = false) waiting ->
    sltb a now = true ->
    InitialState.run_ticks Both (waiting ++ [now; t1; t2]) st ctl
    = (repeat false (length waiting) ++ [false; false; true],
       InitialState.set_phase st 3,
       {| InitialState.t := t2; InitialState.enableManagerUpdate_ := true;
          InitialState.gui_Start := false;
          InitialState.calls :=
            InitialState.calls ctl ++ InitialState.bring_up Both
            ++ InitialState.add_loggers Foot |}).
Proof.
  intros R SO Foot Both st ctl a waiting now t1 t2 Hph Hcfg Hwait Hnow.
  rewrite run_ticks_app.
  rewrite run_ticks_wait;
    [| exact Hph | intros a' Ha'; rewrite Hcfg in Ha'; injection Ha' as <-; exact Hwait].
  change (InitialState.run_ticks Both [now; t1; t2] st ?c)
    with (let '(done, st1, ctl1) := InitialState.run Both st (InitialState.at_time c now) in
          let '(dones, st2, ctl2) := InitialState.run_ticks Both [t1; t2] st1 ctl1 in
          (done :: dones, st2, ctl2)).
  unfold InitialState.run at 1. rewrite Hph, Hcfg. cbn [Z.eqb].
  cbn [InitialState.t InitialState.at_time]. rewrite Hnow.
  rewrite run_ticks_from_1 by reflexivity. reflexivity.
Qed.

Lemma InitialState_auto_start_witness :
  InitialState.run_ticks [Left; Right] ([1%Q; 2%Q] ++ [5 # 2; 3%Q; 4%Q])
                         scenario_state scenario_controller
  = (repeat false (length [1%Q; 2%Q]) ++ [false; false; true],
     InitialState.set_phase scenario_state 3,
     {| InitialState.t := 4%Q; InitialState.enableManagerUpdate_ := true;
        InitialState.gui_Start := false;
        InitialState.calls :=
          InitialState.calls scenario_controller ++ InitialState.bring_up [Left; Right]
          ++ InitialState.add_loggers scenario_Foot |}).
Proof.
  apply (@InitialState_auto_start Q Q_ScalarOps scenario_Foot [Left; Right]
           scenario_state scenario_controller 2%Q).
  - reflexivity.
  - reflexivity.
  - repeat constructor.
  - reflexivity.
Defined.

(** X15: after a press on Start, whatever the configuration and the clock,
    the next tick brings up the tasks and the managers and answers false, and
    the tick after it registers the loggers and answers true. *)
Theorem InitialState_after_press :
  forall (R : Type) (SO : ScalarOps R) (Foot : Type) (Both : list Foot)
         (st : InitialState.State) (ctl : InitialState.Controller Foot) (t1 t2 : R),
    InitialState.run_ticks Both [t1; t2] (InitialState.press_Start st) ctl
    = ([false; true], InitialState.set_phase st 3,
       {| InitialState.t := t2; InitialState.enableManagerUpdate_ := true;
          InitialState.gui_Start := false;
          InitialState.calls :=
            InitialState.calls ctl ++ InitialState.bring_up Both
            ++ InitialState.add_loggers Foot |}).
Proof.
  intros R SO Foot Both st ctl t1 t2.
  now rewrite (run_ticks_from_1 Both (InitialState.press_Start st) ctl t1 t2 eq_refl).
Qed.

(** X16: [run] treats every phase other than 0 and 1 as the last step: once
    it has answered true, each further call answers true again, leaves the
    phase at 3 and registers the two loggers once more. *)
Theorem InitialState_run_after_done :
  forall (R : Type) (SO : ScalarOps R) (Foot : Type) (Both : list Foot)
         (st : InitialState.State) (ctl : InitialState.Controller Foot) (times : list R),
    InitialState.phase_ st <> 0 -> InitialState.phase_ st <> 1 -> times <> [] ->
    InitialState.run_ticks Both times st ctl
    = (repeat true (length times), InitialState.set_phase st 3,
       {| InitialState.t := last times (InitialState.t ctl);
          InitialState.enableManagerUpdate_ := InitialState.enableManagerUpdate_ ctl;
          InitialState.gui_Start := InitialState.gui_Start ctl;
          InitialState.calls :=
            InitialState.calls ctl
            ++ concat (repeat (InitialState.add_loggers Foot) (length times)) |}).
Proof.
  intros R SO Foot Both st ctl times H0 H1 Hne. now apply run_ticks_done.
Qed.

Lemma InitialState_run_after_done_witness :
  InitialState.run_ticks [Left; Right] [5%Q; 6%Q]
                         (InitialState.set_phase scenario_state 3) scenario_controller
  = (repeat true (length [5%Q; 6%Q]),
     InitialState.set_phase (InitialState.set_phase scenario_state 3) 3,
     {| InitialState.t := last [5%Q; 6%Q] (InitialState.t scenario_controller);
        InitialState.enableManagerUpdate_ :=
          InitialState.enableManagerUpdate_ scenario_controller;
        InitialState.gui_Start := InitialState.gui_Start scenario_controller;
        InitialState.calls :=
          InitialState.calls scenario_controller
          ++ concat (repeat (InitialState.add_loggers scenario_Foot)
                            (length [5%Q; 6%Q])) |}).
Proof.
  apply (@InitialState_run_after_done Q Q_ScalarOps scenario_Foot); discriminate.
Defined.

(** X17: after [start], through any sequence of ticks and of presses on the
    Start button while the GUI shows it, the phase is 0, 1, 2 or 3; the
    button is shown exactly in phases 0 and 1, where nothing has been called
    yet; from phase 2 on manager updates are enabled and the tasks and
    managers have been brought up exactly once; loggers are registered only
    in phase 3, after the bring-up. *)
Theorem InitialState_reachable_shape :
  forall (R : Type) (SO : ScalarOps R) (Foot : Type) (Both : list Foot)
         (st0 : InitialState.State) (ctl0 : InitialState.Controller Foot)
         (st : InitialState.State) (ctl : InitialState.Controller Foot),
    InitialState.reachable Both st0 ctl0 st ctl ->
    InitialState.config_ st = InitialState.config_ st0
    /\ (((InitialState.phase_ st = 0 \/ InitialState.phase_ st = 1)
         /\ InitialState.gui_Start ctl = true
         /\ InitialState.enableManagerUpdate_ ctl = InitialState.enableManagerUpdate_ ctl0
         /\ InitialState.calls ctl
            = InitialState.calls ctl0 ++ [InitialState.State_start Foot])
        \/ (InitialState.phase_ st = 2
            /\ InitialState.gui_Start ctl = false
            /\ InitialState.enableManagerUpdate_ ctl = true
            /\ InitialState.calls ctl
               = InitialState.calls ctl0 ++ [InitialState.State_start Foot]
                 ++ InitialState.bring_up Both)
        \/ (InitialState.phase_ st = 3
            /\ InitialState.gui_Start ctl = false
            /\ InitialState.enableManagerUpdate_ ctl = true
            /\ exists n,
                InitialState.calls ctl
                = InitialState.calls ctl0 ++ [InitialState.State_start Foot]
                  ++ InitialState.bring_up Both
                  ++ concat (repeat (InitialState.add_loggers Foot) (S n)))).
Proof.
  intros R SO Foot Both st0 ctl0 st ctl Hreach. now apply reachable_shape.
Qed.

Lemma InitialState_reachable_shape_witness :
  InitialState.config_ (InitialState.press_Start
                          (fst (InitialState.start scenario_state scenario_controller)))
  = InitialState.config_ scenario_state
  /\ (((InitialState.phase_
          (InitialState.press_Start
             (fst (InitialState.start scenario_state scenario_controller))) = 0
        \/ InitialState.phase_
             (InitialState.press_Start
                (fst (InitialState.start scenario_state scenario_controller))) = 1)
       /\ InitialState.gui_Start (snd (InitialState.start scenario_state scenario_controller))
          = true
       /\ InitialState.enableManagerUpdate_
            (snd (InitialState.start scenario_state scenario_controller))
          = InitialState.enableManagerUpdate_ scenario_controller
       /\ InitialState.calls (snd (InitialState.start scenario_state scenario_controller))
          = InitialState.calls scenario_controller
            ++ [InitialState.State_start scenario_Foot])
      \/ (InitialState.phase_
            (InitialState.press_Start
               (fst (InitialState.start scenario_state scenario_controller))) = 2
          /\ InitialState.gui_Start (snd (InitialState.start scenario_state scenario_controller))
             = false
          /\ InitialState.enableManagerUpdate_
               (snd (InitialState.start scenario_state scenario_controller)) = true
          /\ InitialState.calls (snd (InitialState.start scenario_state scenario_controller))
             = InitialState.calls scenario_controller
               ++ [InitialState.State_start scenario_Foot]
               ++ InitialState.bring_up [Left; Right])
      \/ (InitialState.phase_
            (InitialState.press_Start
               (fst (InitialState.start scenario_state scenario_controller))) = 3
          /\ InitialState.gui_Start (snd (InitialState.start scenario_state scenario_controller))
             = false
          /\ InitialState.enableManagerUpdate_
               (snd (InitialState.start scenario_state scenario_controller)) = true
          /\ exists n,
              InitialState.calls (snd (InitialState.start scenario_state scenario_controller))
              = InitialState.calls scenario_controller
                ++ [InitialState.State_start scenario_Foot]
                ++ InitialState.bring_up [Left; Right]
                ++ concat (repeat (InitialState.add_loggers scenario_Foot) (S n)))).
Proof.
  apply (@InitialState_reachable_shape Q Q_ScalarOps scenario_Foot [Left; Right]
           scenario_state scenario_controller).
  apply InitialState.reach_press; [apply InitialState.reach_start | reflexivity].
Defined.
